(** * The project importer of Antenna: [import_project]

    A shallow embedding of
    [ami/main/management/commands/import_project.py] and the properties
    of its natural-language specification.

    The command reads a JSON export document and rebuilds the project in
    the database, inside one [transaction.atomic()] block.  The model has
    three parts:

    - the _document_: one typed record per entity kind, with the fields
      the importer reads.  A field read with [d["k"]] is an [option]
      whose [None] is an absent key (the read raises [KeyError]); a
      field read with [d.get("k")] is an [option] whose [None] is an
      absent key or a JSON null.  Identities are JSON integers.
    - the _database_: one table of rows per Django model, a sequence per
      table for fresh primary keys, and one set of pairs per
      many-to-many relation.
    - the _command_: a state and exception monad over the database and
      the command's [id_maps], in which every [import_*] method is
      written statement by statement.

    Columns that the importer copies from a record without looking at
    them (descriptions, coordinates, scores, timestamps, ...) are left
    out of the rows. *)

From Stdlib Require Import ZArith Lia Ascii.
From stdpp Require Import base tactics option list relations gmap strings functions pretty.

Open Scope Z_scope.


(* ===================================================================== *)
(** ** The database *)
(* ===================================================================== *)

(** The Django models the command touches. *)
Inductive model :=
  | User | Project | Site | Device | S3StorageSource | Deployment | Event
  | Taxon | TaxaList | Tag | SourceImage | SourceImageCollection
  | Algorithm | AlgorithmCategoryMap | Occurrence | Detection
  | Classification | Identification | ProcessingService | Pipeline
  | ProjectPipelineConfig.

#[global] Instance model_eq_dec : EqDecision model := ltac:(solve_decision).

(** The many-to-many relations, named [Owner_field]. A pair [(a, b)] of
    [Taxon_projects] says that project [b] is in [taxon a .projects]. *)
Inductive m2m :=
  | Project_members | Taxon_projects | TaxaList_projects | TaxaList_taxa
  | Tag_taxa | SourceImageCollection_images | ProcessingService_projects
  | Pipeline_algorithms.

#[global] Instance m2m_eq_dec : EqDecision m2m := ltac:(solve_decision).

(** Column values: SQL NULL, integers (also foreign keys), text, and an
    opaque JSON payload. *)
Inductive val :=
  | VNull
  | VInt (z : Z)
  | VStr (s : string)
  | VJson (j : list string).

#[global] Instance val_eq_dec : EqDecision val := ltac:(solve_decision).

(** A row, and at the same time the Python object of a model instance:
    its primary key and its keyword arguments. *)
Record row := Row { pk : Z; cols : list (string * val) }.

Fixpoint assoc (c : string) (l : list (string * val)) : val :=
  match l with
  | [] => VNull
  | (c', v) :: l => if String.eqb c c' then v else assoc c l
  end.

(** [r.c]: the value of column [c], NULL when the row does not set it. *)
Definition col (r : row) (c : string) : val := assoc c (cols r).

(** [r.c = v] on the Python object. *)
Definition set_col (c : string) (v : val) (r : row) : row :=
  Row (pk r) ((c, v) :: cols r).

(** A nullable foreign key as a column value. *)
Definition fk (o : option Z) : val :=
  match o with Some z => VInt z | None => VNull end.

(** The state a command runs in: the tables, the sequences that hand out
    primary keys, the many-to-many relations, and the command's own
    [self.id_maps]. *)
Record state := State {
  tables : model → list row;
  seq : model → Z;
  links : m2m → gset (Z * Z);
  id_maps : model → gmap Z Z
}.

Definition set_tables (f : (model → list row) → model → list row) (s : state) : state :=
  State (f (tables s)) (seq s) (links s) (id_maps s).
Definition set_seq (f : (model → Z) → model → Z) (s : state) : state :=
  State (tables s) (f (seq s)) (links s) (id_maps s).
Definition set_links (f : (m2m → gset (Z * Z)) → m2m → gset (Z * Z)) (s : state) : state :=
  State (tables s) (seq s) (f (links s)) (id_maps s).
Definition set_id_maps (f : (model → gmap Z Z) → model → gmap Z Z) (s : state) : state :=
  State (tables s) (seq s) (links s) (f (id_maps s)).

(* ===================================================================== *)
(** ** The command monad: state and exceptions *)
(* ===================================================================== *)

Inductive exn :=
  | KeyError (key : string)
  | CommandError (msg : string)
  | MultipleObjectsReturned
  | Exception (msg : string)
  | OutOfFuel.

Inductive outcome (A : Type) :=
  | Ok (a : A)
  | Raise (e : exn).
Arguments Ok {A} a.
Arguments Raise {A} e.

(** A statement maps a state to an outcome and the state it leaves
    behind; an exception keeps the writes made before it. *)
Definition M (A : Type) : Type := state → outcome A * state.

Definition ret {A} (a : A) : M A := λ s, (Ok a, s).
Definition raise {A} (e : exn) : M A := λ s, (Raise e, s).
Definition bind {A B} (m : M A) (k : A → M B) : M B :=
  λ s, match m s with
       | (Ok a, s') => k a s'
       | (Raise e, s') => (Raise e, s')
       end.

Declare Scope cmd_scope.
Delimit Scope cmd_scope with cmd.
Notation "x <- m ;; k" := (bind m (λ x, k))
  (at level 100, m at next level, right associativity) : cmd_scope.
Notation "m ;; k" := (bind m (λ _, k))
  (at level 100, right associativity) : cmd_scope.
Open Scope cmd_scope.

(** [for x in l: body(x)] *)
Fixpoint for_each {A} (l : list A) (body : A → M unit) : M unit :=
  match l with
  | [] => ret tt
  | x :: l => body x ;; for_each l body
  end.

(** The same loop, threading a local variable of the method. *)
Fixpoint for_each_with {A B} (l : list A) (b : B) (body : B → A → M B) : M B :=
  match l with
  | [] => ret b
  | x :: l => b' <- body b x ;; for_each_with l b' body
  end.

(** [continue] in a loop body. *)
Definition continue : M unit := ret tt.

(** [d["key"]] on a document record. *)
Definition subscript {A} (key : string) (field : option A) : M A :=
  match field with
  | Some a => ret a
  | None => raise (KeyError key)
  end.

(** Truth value of an identity: [None] and [0] are false. *)
Definition truthy (o : option Z) : bool :=
  match o with
  | Some z => negb (z =? 0)
  | None => false
  end.

(** *** The ORM *)

Definition has_pk (i : Z) (r : row) : bool := pk r =? i.

(** The write of [obj.save()]: UPDATE the row with the object's primary
    key; INSERT the object when no row has it. *)
Definition update_or_insert (o : row) (l : list row) : list row :=
  if existsb (has_pk (pk o)) l
  then map (λ r, if has_pk (pk o) r then o else r) l
  else l ++ [o].

(** The writes a command sends to the database and to its identity
    maps. *)
Inductive write :=
  | Create (k : model) (kwargs : list (string * val))
  | Save (k : model) (o : row)
  | Add (rel : m2m) (owner other : Z)
  | SetTo (rel : m2m) (owner : Z) (ids : list Z)
  | Register (k : model) (old new : Z).

Definition perform (w : write) (s : state) : state :=
  match w with
  | Create k kwargs =>
      set_seq <[k := seq s k + 1]>
        (set_tables <[k := tables s k ++ [Row (seq s k) kwargs]]> s)
  | Save k o => set_tables <[k := update_or_insert o (tables s k)]> s
  | Add rel owner other =>
      set_links <[rel := {[ (owner, other) ]} ∪ links s rel]> s
  | SetTo rel owner ids =>
      set_links <[rel := filter (λ p, p.1 ≠ owner) (links s rel)
                         ∪ list_to_set ((λ i, (owner, i)) <$> ids)]> s
  | Register k old new =>
      set_id_maps <[k := <[old := new]> (id_maps s k)]> s
  end.

(** [Model.objects.create(...)]: the new row takes the next value of the
    table's sequence. *)
Definition objects_create (k : model) (kwargs : list (string * val)) : M row :=
  λ s, (Ok (Row (seq s k) kwargs), perform (Create k kwargs) s).

(** [Model.objects.filter(...)], as the list of matching rows. *)
Definition objects_filter (k : model) (p : row → bool) : M (list row) :=
  λ s, (Ok (filter (λ r, p r = true) (tables s k)), s).

(** [Model.objects.filter(...).first()] *)
Definition objects_first (k : model) (p : row → bool) : M (option row) :=
  λ s, (Ok (head (filter (λ r, p r = true) (tables s k))), s).

(** [Model.objects.filter(...).exists()] *)
Definition objects_exists (k : model) (p : row → bool) : M bool :=
  λ s, (Ok (match filter (λ r, p r = true) (tables s k) with
            | [] => false
            | _ => true
            end), s).

(** [Model.objects.get(...)] with its two exceptions; the caller turns
    [DoesNotExist] into the exception it wants. *)
Definition objects_get (k : model) (p : row → bool) (does_not_exist : exn) : M row :=
  l <- objects_filter k p ;;
  match l with
  | [] => raise does_not_exist
  | [r] => ret r
  | _ => raise MultipleObjectsReturned
  end.

(** [obj.save()] *)
Definition save (k : model) (o : row) : M unit :=
  λ s, (Ok tt, perform (Save k o) s).

(** [owner.field.add(other)] *)
Definition m2m_add (rel : m2m) (owner other : Z) : M unit :=
  λ s, (Ok tt, perform (Add rel owner other) s).

(** [owner.field.set(ids)]: the owner's links become exactly [ids]. *)
Definition m2m_set (rel : m2m) (owner : Z) (ids : list Z) : M unit :=
  λ s, (Ok tt, perform (SetTo rel owner ids) s).

(** *** The identity maps *)

(** [self.id_maps[kind].get(old)]: [None] for a null reference or an
    identity that was not registered. *)
Definition id_map_get (k : model) (old : option Z) : M (option Z) :=
  λ s, (Ok (old ≫= λ i, id_maps s k !! i), s).

(** [self.id_maps[kind][old] = new] *)
Definition id_map_set (k : model) (old new : Z) : M unit :=
  λ s, (Ok tt, perform (Register k old new) s).

(** One element of [[self.id_maps[kind].get(old) for old in ids]] that
    passes the filter [[i for i in ... if i]]. *)
Definition resolve (m : gmap Z Z) (old : Z) : option Z :=
  match m !! old with
  | Some new => if truthy (Some new) then Some new else None
  | None => None
  end.

Definition resolve_all (k : model) (ids : list Z) : M (list Z) :=
  λ s, (Ok (omap (resolve (id_maps s k)) ids), s).

(** [with transaction.atomic(): body]: an exception leaving the block
    rolls the tables and the relations back; sequences and the memory of
    the process are not part of the transaction. *)
Definition rollback (before after : state) : state :=
  State (tables before) (seq after) (links before) (id_maps after).

Definition atomic {A} (body : M A) : M A :=
  λ s, match body s with
       | (Ok a, s') => (Ok a, s')
       | (Raise e, s') => (Raise e, rollback s s')
       end.

(* ===================================================================== *)
(** ** The export document *)
(* ===================================================================== *)

Record project_data := {
  pd_id : option Z;                      (* ["id"] *)
  pd_name : option string                (* ["name"] *)
}.

Record site_data := { s_id : option Z; s_name : option string }.
Record device_data := { dv_id : option Z; dv_name : option string }.
Record source_data := { ss_id : option Z; ss_name : option string }.

Record deployment_data := {
  d_id : option Z;                       (* ["id"] *)
  d_name : option string;                (* ["name"] *)
  d_research_site_id : option Z;         (* .get("research_site_id") *)
  d_device_id : option Z;                (* .get("device_id") *)
  d_data_source_id : option Z            (* .get("data_source_id") *)
}.

Record event_data := {
  e_id : option Z;                       (* ["id"] *)
  e_deployment_id : option (option Z);   (* ["deployment_id"], may be null *)
  e_group_by : option string             (* ["group_by"] *)
}.

Record taxon_data := {
  t_id : option Z;                       (* ["id"] *)
  t_name : option string;                (* ["name"] *)
  t_parent_id : option Z;                (* .get("parent_id") *)
  t_synonym_of_id : option Z             (* .get("synonym_of_id") *)
}.

Record taxa_list_data := {
  tl_id : option Z;                      (* ["id"] *)
  tl_name : option string;               (* ["name"] *)
  tl_taxa_ids : option (list Z)          (* .get("taxa_ids", []) *)
}.

Record tag_data := {
  tg_id : option Z;                      (* ["id"] *)
  tg_name : option string;               (* ["name"] *)
  tg_taxa_ids : option (list Z)          (* .get("taxa_ids", []) *)
}.

Record img_data := {
  im_id : option Z;                      (* ["id"] *)
  im_deployment_id : option (option Z);  (* ["deployment_id"], may be null *)
  im_event_id : option Z;                (* .get("event_id") *)
  im_path : option string                (* ["path"] *)
}.

Record collection_data := {
  c_id : option Z;                       (* ["id"] *)
  c_name : option string;                (* ["name"] *)
  c_image_ids : option (list Z)          (* .get("image_ids", []) *)
}.

Record algo_data := {
  al_id : option Z;                      (* ["id"] *)
  al_name : option string;               (* ["name"] *)
  al_key : option string;                (* ["key"] *)
  al_version : option Z;                 (* ["version"] *)
  al_category_map_data : option (list string)  (* .get("category_map_data") *)
}.

Record occ_data := {
  o_id : option Z;                       (* ["id"] *)
  o_event_id : option Z;                 (* .get("event_id") *)
  o_deployment_id : option Z;            (* .get("deployment_id") *)
  o_determination_id : option Z          (* .get("determination_id") *)
}.

Record det_data := {
  dt_id : option Z;                      (* ["id"] *)
  dt_source_image_id : option (option Z);  (* ["source_image_id"], may be null *)
  dt_occurrence_id : option Z;           (* .get("occurrence_id") *)
  dt_detection_algorithm_id : option Z   (* .get("detection_algorithm_id") *)
}.

Record cls_data := {
  cl_id : option Z;                      (* ["id"] *)
  cl_detection_id : option (option Z);   (* ["detection_id"], may be null *)
  cl_taxon_id : option Z;                (* .get("taxon_id") *)
  cl_algorithm_id : option Z             (* .get("algorithm_id") *)
}.

Record id_data := {
  i_id : option Z;                       (* ["id"] *)
  i_occurrence_id : option (option Z);   (* ["occurrence_id"], may be null *)
  i_taxon_id : option Z;                 (* .get("taxon_id") *)
  i_agreed_with_identification_id : option Z;
  i_agreed_with_prediction_id : option Z
}.

Record service_data := {
  ps_id : option Z;                      (* ["id"] *)
  ps_name : option string;               (* ["name"] *)
  ps_endpoint_url : option string        (* ["endpoint_url"] *)
}.

Record pipeline_data := {
  pl_id : option Z;                      (* ["id"] *)
  pl_name : option string;               (* ["name"] *)
  pl_version : option Z;                 (* ["version"] *)
  pl_algorithm_ids : option (list Z)     (* .get("algorithm_ids", []) *)
}.

Record config_data := {
  pc_id : option Z;                      (* ["id"] *)
  pc_pipeline_id : option (option Z)     (* ["pipeline_id"], may be null *)
}.

(** [export_data]: every top-level key is read with [export_data["k"]]. *)
Record document := {
  doc_project : option project_data;
  doc_sites : option (list site_data);
  doc_devices : option (list device_data);
  doc_storage_sources : option (list source_data);
  doc_deployments : option (list deployment_data);
  doc_events : option (list event_data);
  doc_taxa : option (list taxon_data);
  doc_taxa_lists : option (list taxa_list_data);
  doc_tags : option (list tag_data);
  doc_source_images : option (list img_data);
  doc_collections : option (list collection_data);
  doc_algorithms : option (list algo_data);
  doc_occurrences : option (list occ_data);
  doc_detections : option (list det_data);
  doc_classifications : option (list cls_data);
  doc_identifications : option (list id_data);
  doc_processing_services : option (list service_data);
  doc_pipelines : option (list pipeline_data);
  doc_pipeline_configs : option (list config_data)
}.

(** The parsed command line. *)
Record options := {
  opt_user : string;                     (* --user *)
  opt_project_name : option string;      (* --project-name *)
  opt_skip_images : bool;                (* --skip-images *)
  opt_skip_ml_data : bool                (* --skip-ml-data *)
}.

(* ===================================================================== *)
(** ** The command *)
(* ===================================================================== *)

(** [Command.__init__]: a command starts with empty identity maps. *)
Definition Command_init (s : state) : state := set_id_maps (λ _ _, ∅) s.

(** The keyword filter [column=v]. *)
Definition col_is (c : string) (v : val) (r : row) : bool :=
  bool_decide (col r c = v).

(** [f"{base_name} ({counter})"] *)
Definition suffixed (base_name : string) (counter : Z) : string :=
  base_name +:+ " (" +:+ pretty counter +:+ ")".

(** The [while] loop of [import_project]. Every turn that finds the name
    taken uses one unit of fuel. *)
Fixpoint while_name_exists (fuel : nat) (base_name name : string) (counter : Z) : M string :=
  taken <- objects_exists Project (col_is "name" (VStr name)) ;;
  if taken then
    match fuel with
    | O => raise OutOfFuel
    | S fuel => while_name_exists fuel base_name (suffixed base_name counter) (counter + 1)
    end
  else ret name.

Definition import_project (project_data : project_data) (user : row) (options : options) : M row :=
  (* name = options.get("project_name") or project_data["name"] *)
  name <- match opt_project_name options with
          | Some n => if String.eqb n "" then subscript "name" (pd_name project_data) else ret n
          | None => subscript "name" (pd_name project_data)
          end ;;
  taken <- objects_exists Project (col_is "name" (VStr name)) ;;
  name <- (if taken then
             projects <- objects_filter Project (λ _, true) ;;
             while_name_exists (length projects) name name 1
           else ret name) ;;
  project <- objects_create Project [("name", VStr name); ("owner", VInt (pk user))] ;;
  m2m_add Project_members (pk project) (pk user) ;;
  old <- subscript "id" (pd_id project_data) ;;
  id_map_set Project old (pk project) ;;
  ret project.

Definition import_sites (sites_data : list site_data) (project : row) : M unit :=
  for_each sites_data (λ site_data,
    name <- subscript "name" (s_name site_data) ;;
    site <- objects_create Site [("project", VInt (pk project)); ("name", VStr name)] ;;
    old <- subscript "id" (s_id site_data) ;;
    id_map_set Site old (pk site)).

Definition import_devices (devices_data : list device_data) (project : row) : M unit :=
  for_each devices_data (λ device_data,
    name <- subscript "name" (dv_name device_data) ;;
    device <- objects_create Device [("project", VInt (pk project)); ("name", VStr name)] ;;
    old <- subscript "id" (dv_id device_data) ;;
    id_map_set Device old (pk device)).

Definition import_storage_sources (sources_data : list source_data) (project : row) : M unit :=
  for_each sources_data (λ source_data,
    name <- subscript "name" (ss_name source_data) ;;
    source <- objects_create S3StorageSource [("project", VInt (pk project)); ("name", VStr name)] ;;
    old <- subscript "id" (ss_id source_data) ;;
    id_map_set S3StorageSource old (pk source)).

Definition import_deployments (deployments_data : list deployment_data) (project : row) : M unit :=
  for_each deployments_data (λ deployment_data,
    research_site_id <- id_map_get Site (d_research_site_id deployment_data) ;;
    device_id <- id_map_get Device (d_device_id deployment_data) ;;
    data_source_id <- id_map_get S3StorageSource (d_data_source_id deployment_data) ;;
    name <- subscript "name" (d_name deployment_data) ;;
    deployment <- objects_create Deployment
      [("project", VInt (pk project)); ("name", VStr name);
       ("research_site_id", fk research_site_id); ("device_id", fk device_id);
       ("data_source_id", fk data_source_id)] ;;
    old <- subscript "id" (d_id deployment_data) ;;
    id_map_set Deployment old (pk deployment)).

Definition import_events (events_data : list event_data) (project : row) : M unit :=
  for_each events_data (λ event_data,
    ref <- subscript "deployment_id" (e_deployment_id event_data) ;;
    deployment_id <- id_map_get Deployment ref ;;
    if negb (truthy deployment_id) then continue else
    group_by <- subscript "group_by" (e_group_by event_data) ;;
    event <- objects_create Event
      [("project", VInt (pk project)); ("deployment_id", fk deployment_id);
       ("group_by", VStr group_by)] ;;
    old <- subscript "id" (e_id event_data) ;;
    id_map_set Event old (pk event)).

(** First pass of [import_taxa], one record: reuse the first Taxon with
    this name or create one, register it, remember the Python object in
    the local [taxa_by_old_id], and add the project to its projects. *)
Definition import_taxa_first (project : row) (taxa_by_old_id : gmap Z row)
    (taxon_data : taxon_data) : M (gmap Z row) :=
  name <- subscript "name" (t_name taxon_data) ;;
  found <- objects_first Taxon (col_is "name" (VStr name)) ;;
  taxon <- match found with
           | Some taxon => ret taxon
           | None => objects_create Taxon [("name", VStr name)]
           end ;;
  old <- subscript "id" (t_id taxon_data) ;;
  id_map_set Taxon old (pk taxon) ;;
  m2m_add Taxon_projects (pk taxon) (pk project) ;;
  ret (<[old := taxon]> taxa_by_old_id).

(** Second pass, one record: the object remembered for the record gets
    the resolved parent and synonym and is saved after each; the object
    stays in [taxa_by_old_id] with what was assigned to it. *)
Definition import_taxa_second (taxa_by_old_id : gmap Z row)
    (taxon_data : taxon_data) : M (gmap Z row) :=
  old <- subscript "id" (t_id taxon_data) ;;
  taxon <- subscript "taxa_by_old_id" (taxa_by_old_id !! old) ;;
  taxon <- (if truthy (t_parent_id taxon_data) then
              parent_id <- id_map_get Taxon (t_parent_id taxon_data) ;;
              if truthy parent_id then
                let taxon := set_col "parent_id" (fk parent_id) taxon in
                save Taxon taxon ;; ret taxon
              else ret taxon
            else ret taxon) ;;
  taxon <- (if truthy (t_synonym_of_id taxon_data) then
              synonym_id <- id_map_get Taxon (t_synonym_of_id taxon_data) ;;
              if truthy synonym_id then
                let taxon := set_col "synonym_of_id" (fk synonym_id) taxon in
                save Taxon taxon ;; ret taxon
              else ret taxon
            else ret taxon) ;;
  ret (<[old := taxon]> taxa_by_old_id).

Definition import_taxa (taxa_data : list taxon_data) (project : row) : M unit :=
  taxa_by_old_id <- for_each_with taxa_data ∅ (import_taxa_first project) ;;
  for_each_with taxa_data taxa_by_old_id import_taxa_second ;;
  ret tt.

Definition import_taxa_lists (taxa_lists_data : list taxa_list_data) (project : row) : M unit :=
  for_each taxa_lists_data (λ taxa_list_data,
    name <- subscript "name" (tl_name taxa_list_data) ;;
    taxa_list <- objects_create TaxaList [("name", VStr name)] ;;
    m2m_add TaxaList_projects (pk taxa_list) (pk project) ;;
    taxon_ids <- resolve_all Taxon (default [] (tl_taxa_ids taxa_list_data)) ;;
    match taxon_ids with
    | [] => ret tt
    | _ => m2m_set TaxaList_taxa (pk taxa_list) taxon_ids
    end ;;
    old <- subscript "id" (tl_id taxa_list_data) ;;
    id_map_set TaxaList old (pk taxa_list)).

Definition import_tags (tags_data : list tag_data) (project : row) : M unit :=
  for_each tags_data (λ tag_data,
    name <- subscript "name" (tg_name tag_data) ;;
    tag <- objects_create Tag [("project", VInt (pk project)); ("name", VStr name)] ;;
    taxon_ids <- resolve_all Taxon (default [] (tg_taxa_ids tag_data)) ;;
    match taxon_ids with
    | [] => ret tt
    | _ => m2m_set Tag_taxa (pk tag) taxon_ids
    end ;;
    old <- subscript "id" (tg_id tag_data) ;;
    id_map_set Tag old (pk tag)).

Definition import_source_images (images_data : list img_data) (project : row) : M unit :=
  for_each images_data (λ img_data,
    ref <- subscript "deployment_id" (im_deployment_id img_data) ;;
    deployment_id <- id_map_get Deployment ref ;;
    event_id <- id_map_get Event (im_event_id img_data) ;;
    if negb (truthy deployment_id) then continue else
    path <- subscript "path" (im_path img_data) ;;
    img <- objects_create SourceImage
      [("project", VInt (pk project)); ("deployment_id", fk deployment_id);
       ("event_id", fk event_id); ("path", VStr path)] ;;
    old <- subscript "id" (im_id img_data) ;;
    id_map_set SourceImage old (pk img)).

Definition import_collections (collections_data : list collection_data) (project : row) : M unit :=
  for_each collections_data (λ collection_data,
    name <- subscript "name" (c_name collection_data) ;;
    collection <- objects_create SourceImageCollection
      [("project", VInt (pk project)); ("name", VStr name)] ;;
    image_ids <- resolve_all SourceImage (default [] (c_image_ids collection_data)) ;;
    match image_ids with
    | [] => ret tt
    | _ => m2m_set SourceImageCollection_images (pk collection) image_ids
    end ;;
    old <- subscript "id" (c_id collection_data) ;;
    id_map_set SourceImageCollection old (pk collection)).

(** Truth value of the JSON payload [category_map_data]. *)
Definition truthy_data (o : option (list string)) : bool :=
  match o with
  | Some (_ :: _) => true
  | _ => false
  end.

Definition import_algorithms (algorithms_data : list algo_data) (project : row) : M unit :=
  for_each algorithms_data (λ algo_data,
    key <- subscript "key" (al_key algo_data) ;;
    version <- subscript "version" (al_version algo_data) ;;
    found <- objects_first Algorithm
      (λ r, col_is "key" (VStr key) r && col_is "version" (VInt version) r) ;;
    algorithm <- match found with
      | Some algorithm => ret algorithm
      | None =>
          category_map <-
            (if truthy_data (al_category_map_data algo_data) then
               let data := default [] (al_category_map_data algo_data) in
               existing <- objects_first AlgorithmCategoryMap (col_is "data" (VJson data)) ;;
               match existing with
               | Some category_map => ret (Some (pk category_map))
               | None =>
                   category_map <- objects_create AlgorithmCategoryMap [("data", VJson data)] ;;
                   ret (Some (pk category_map))
               end
             else ret None) ;;
          name <- subscript "name" (al_name algo_data) ;;
          objects_create Algorithm
            [("name", VStr name); ("key", VStr key); ("version", VInt version);
             ("category_map", fk category_map)]
      end ;;
    old <- subscript "id" (al_id algo_data) ;;
    id_map_set Algorithm old (pk algorithm)).

Definition import_occurrences (occurrences_data : list occ_data) (project : row) : M unit :=
  for_each occurrences_data (λ occ_data,
    event_id <- id_map_get Event (o_event_id occ_data) ;;
    deployment_id <- id_map_get Deployment (o_deployment_id occ_data) ;;
    determination_id <- id_map_get Taxon (o_determination_id occ_data) ;;
    if negb (truthy event_id) || negb (truthy deployment_id) then continue else
    occurrence <- objects_create Occurrence
      [("project", VInt (pk project)); ("event_id", fk event_id);
       ("deployment_id", fk deployment_id); ("determination_id", fk determination_id)] ;;
    old <- subscript "id" (o_id occ_data) ;;
    id_map_set Occurrence old (pk occurrence)).

Definition import_detections (detections_data : list det_data) (project : row) : M unit :=
  for_each detections_data (λ det_data,
    ref <- subscript "source_image_id" (dt_source_image_id det_data) ;;
    source_image_id <- id_map_get SourceImage ref ;;
    occurrence_id <- id_map_get Occurrence (dt_occurrence_id det_data) ;;
    algorithm_id <- id_map_get Algorithm (dt_detection_algorithm_id det_data) ;;
    if negb (truthy source_image_id) then continue else
    detection <- objects_create Detection
      [("source_image_id", fk source_image_id); ("occurrence_id", fk occurrence_id);
       ("detection_algorithm_id", fk algorithm_id)] ;;
    old <- subscript "id" (dt_id det_data) ;;
    id_map_set Detection old (pk detection)).

Definition import_classifications (classifications_data : list cls_data) (project : row) : M unit :=
  for_each classifications_data (λ cls_data,
    ref <- subscript "detection_id" (cl_detection_id cls_data) ;;
    detection_id <- id_map_get Detection ref ;;
    taxon_id <- id_map_get Taxon (cl_taxon_id cls_data) ;;
    algorithm_id <- id_map_get Algorithm (cl_algorithm_id cls_data) ;;
    if negb (truthy detection_id) then continue else
    classification <- objects_create Classification
      [("detection_id", fk detection_id); ("taxon_id", fk taxon_id);
       ("algorithm_id", fk algorithm_id)] ;;
    old <- subscript "id" (cl_id cls_data) ;;
    id_map_set Classification old (pk classification)).

Definition import_identifications (identifications_data : list id_data) (project user : row) : M unit :=
  for_each identifications_data (λ id_data,
    ref <- subscript "occurrence_id" (i_occurrence_id id_data) ;;
    occurrence_id <- id_map_get Occurrence ref ;;
    taxon_id <- id_map_get Taxon (i_taxon_id id_data) ;;
    agreed_with_identification_id <-
      id_map_get Identification (i_agreed_with_identification_id id_data) ;;
    agreed_with_prediction_id <-
      id_map_get Classification (i_agreed_with_prediction_id id_data) ;;
    if negb (truthy occurrence_id) then continue else
    identification <- objects_create Identification
      [("user", VInt (pk user)); ("occurrence_id", fk occurrence_id);
       ("taxon_id", fk taxon_id);
       ("agreed_with_identification_id", fk agreed_with_identification_id);
       ("agreed_with_prediction_id", fk agreed_with_prediction_id)] ;;
    old <- subscript "id" (i_id id_data) ;;
    id_map_set Identification old (pk identification)).

Definition import_processing_services (services_data : list service_data) (project : row) : M unit :=
  for_each services_data (λ service_data,
    endpoint_url <- subscript "endpoint_url" (ps_endpoint_url service_data) ;;
    found <- objects_first ProcessingService (col_is "endpoint_url" (VStr endpoint_url)) ;;
    service <- match found with
      | Some service => ret service
      | None =>
          name <- subscript "name" (ps_name service_data) ;;
          objects_create ProcessingService
            [("name", VStr name); ("endpoint_url", VStr endpoint_url)]
      end ;;
    m2m_add ProcessingService_projects (pk service) (pk project) ;;
    old <- subscript "id" (ps_id service_data) ;;
    id_map_set ProcessingService old (pk service)).

Definition import_pipelines (pipelines_data : list pipeline_data) (project : row) : M unit :=
  for_each pipelines_data (λ pipeline_data,
    name <- subscript "name" (pl_name pipeline_data) ;;
    version <- subscript "version" (pl_version pipeline_data) ;;
    found <- objects_first Pipeline
      (λ r, col_is "name" (VStr name) r && col_is "version" (VInt version) r) ;;
    pipeline <- match found with
      | Some pipeline => ret pipeline
      | None =>
          pipeline <- objects_create Pipeline [("name", VStr name); ("version", VInt version)] ;;
          algorithm_ids <- resolve_all Algorithm (default [] (pl_algorithm_ids pipeline_data)) ;;
          match algorithm_ids with
          | [] => ret tt
          | _ => m2m_set Pipeline_algorithms (pk pipeline) algorithm_ids
          end ;;
          ret pipeline
      end ;;
    old <- subscript "id" (pl_id pipeline_data) ;;
    id_map_set Pipeline old (pk pipeline)).

Definition import_pipeline_configs (configs_data : list config_data) (project : row) : M unit :=
  for_each configs_data (λ config_data,
    ref <- subscript "pipeline_id" (pc_pipeline_id config_data) ;;
    pipeline_id <- id_map_get Pipeline ref ;;
    if negb (truthy pipeline_id) then continue else
    found <- objects_first ProjectPipelineConfig
      (λ r, col_is "project" (VInt (pk project)) r && col_is "pipeline_id" (fk pipeline_id) r) ;;
    config <- match found with
      | Some config => ret config
      | None =>
          objects_create ProjectPipelineConfig
            [("project", VInt (pk project)); ("pipeline_id", fk pipeline_id)]
      end ;;
    old <- subscript "id" (pc_id config_data) ;;
    id_map_set ProjectPipelineConfig old (pk config)).

Section Command.

(** [Occurrence.save()] lives in the models, outside this command: it
    recomputes the occurrence's determination from the classifications
    and identifications in the database and writes the row. The rule is
    a parameter; like any model code it may raise. *)
Variable determination_rule : (model → list row) → row → outcome val.

Definition Occurrence_save (occurrence : row) : M unit :=
  λ s, match determination_rule (tables s) occurrence with
       | Ok determination =>
           save Occurrence (set_col "determination_id" determination occurrence) s
       | Raise e => (Raise e, s)
       end.

Definition update_occurrences (project : row) : M unit :=
  occurrences <- objects_filter Occurrence (col_is "project" (VInt (pk project))) ;;
  for_each occurrences Occurrence_save.

Definition import_data (export_data : document) (user : row) (options : options) : M unit :=
  (* 1. Project *)
  project_data <- subscript "project" (doc_project export_data) ;;
  project <- import_project project_data user options ;;
  (* 2. Infrastructure *)
  sites <- subscript "sites" (doc_sites export_data) ;;
  import_sites sites project ;;
  devices <- subscript "devices" (doc_devices export_data) ;;
  import_devices devices project ;;
  storage_sources <- subscript "storage_sources" (doc_storage_sources export_data) ;;
  import_storage_sources storage_sources project ;;
  (* 3. Deployments *)
  deployments <- subscript "deployments" (doc_deployments export_data) ;;
  import_deployments deployments project ;;
  (* 4. Events *)
  events <- subscript "events" (doc_events export_data) ;;
  import_events events project ;;
  (* 5. Taxa *)
  taxa <- subscript "taxa" (doc_taxa export_data) ;;
  import_taxa taxa project ;;
  taxa_lists <- subscript "taxa_lists" (doc_taxa_lists export_data) ;;
  import_taxa_lists taxa_lists project ;;
  tags <- subscript "tags" (doc_tags export_data) ;;
  import_tags tags project ;;
  (* 6. Source images (can be skipped) *)
  (if negb (opt_skip_images options) then
     source_images <- subscript "source_images" (doc_source_images export_data) ;;
     import_source_images source_images project ;;
     collections <- subscript "collections" (doc_collections export_data) ;;
     import_collections collections project
   else ret tt) ;;
  (* 7. ML data (can be skipped) *)
  (if negb (opt_skip_ml_data options) && negb (opt_skip_images options) then
     algorithms <- subscript "algorithms" (doc_algorithms export_data) ;;
     import_algorithms algorithms project ;;
     occurrences <- subscript "occurrences" (doc_occurrences export_data) ;;
     import_occurrences occurrences project ;;
     detections <- subscript "detections" (doc_detections export_data) ;;
     import_detections detections project ;;
     classifications <- subscript "classifications" (doc_classifications export_data) ;;
     import_classifications classifications project ;;
     identifications <- subscript "identifications" (doc_identifications export_data) ;;
     import_identifications identifications project user ;;
     update_occurrences project
   else ret tt) ;;
  (* 8. Pipelines and services *)
  processing_services <- subscript "processing_services" (doc_processing_services export_data) ;;
  import_processing_services processing_services project ;;
  pipelines <- subscript "pipelines" (doc_pipelines export_data) ;;
  import_pipelines pipelines project ;;
  pipeline_configs <- subscript "pipeline_configs" (doc_pipeline_configs export_data) ;;
  import_pipeline_configs pipeline_configs project.

(** One line of the summary: [f"  {label}: {len(self.id_maps[kind])}"]. *)
Definition summary_line (label : string) (k : model) (s : state) : string :=
  "  " +:+ label +:+ ": " +:+ pretty (size (id_maps s k)).

Definition print_summary (export_data : document) : M (list string) :=
  project_data <- subscript "project" (doc_project export_data) ;;
  name <- subscript "name" (pd_name project_data) ;;
  λ s, (Ok [ String "010"%char "Import Summary:";
             "  Project: " +:+ name;
             summary_line "Sites" Site s;
             summary_line "Devices" Device s;
             summary_line "Storage Sources" S3StorageSource s;
             summary_line "Deployments" Deployment s;
             summary_line "Events" Event s;
             summary_line "Source Images" SourceImage s;
             summary_line "Collections" SourceImageCollection s;
             summary_line "Taxa" Taxon s;
             summary_line "Taxa Lists" TaxaList s;
             summary_line "Tags" Tag s;
             summary_line "Detections" Detection s;
             summary_line "Classifications" Classification s;
             summary_line "Occurrences" Occurrence s;
             summary_line "Identifications" Identification s;
             summary_line "Algorithms" Algorithm s;
             summary_line "Pipelines" Pipeline s;
             summary_line "Processing Services" ProcessingService s;
             summary_line "Pipeline Configs" ProjectPipelineConfig s ], s).

(** [User.objects.get(email=options["user"])], [DoesNotExist] turned
    into a [CommandError]. *)
Definition get_user (options : options) : M row :=
  objects_get User (col_is "email" (VStr (opt_user options)))
    (CommandError "User does not exist").

(** [handle]: [input_file] is the parsed content of the file, [None]
    when the file does not exist. The lines written to standard output
    before the summary are not modelled. *)
Definition handle (input_file : option document) (options : options) : M (list string) :=
  export_data <- match input_file with
                 | Some export_data => ret export_data
                 | None => raise (CommandError "Input file does not exist")
                 end ;;
  user <- get_user options ;;
  atomic (import_data export_data user options) ;;
  print_summary export_data.

(** [call_command("import_project", ...)]: a new [Command] object, then
    [handle]. *)
Definition call_command (input_file : option document) (options : options) : M (list string) :=
  λ s, handle input_file options (Command_init s).

End Command.

(* ===================================================================== *)
(** ** Reasoning about commands: definitions *)
(* ===================================================================== *)

(** [wp m Q s]: if [m] returns from [s], its result and final state
    satisfy [Q]. *)
Definition wp {A} (m : M A) (Q : A → state → Prop) (s : state) : Prop :=
  match m s with
  | (Ok a, s') => Q a s'
  | (Raise _, _) => True
  end.

(** [m] keeps the invariant [I] when it returns. *)
Definition preserves {A} (I : state → Prop) (m : M A) : Prop :=
  ∀ s, I s → wp m (λ _, I) s.

(** The states a command can reach by writes that [W] allows. *)
Definition reach (W : state → write → Prop) : state → state → Prop :=
  rtc (λ s s', ∃ w, W s w ∧ s' = perform w s).


(* ===================================================================== *)
(** ** Example databases and documents *)
(* ===================================================================== *)

(** An empty database whose sequences start at 1, and the same with one
    user. *)
Definition empty_db : state := State (λ _, []) (λ _, 1) (λ _, ∅) (λ _, ∅).

Definition importer : row := Row 7 [("email", VStr "importer@test.com")].

Definition db_with_user : state :=
  set_seq <[User := 8]> (set_tables <[User := [importer]]> empty_db).

(** A determination rule that keeps the determination of the row. *)
Definition keep_determination : (model → list row) → row → outcome val :=
  λ _ occurrence, Ok (col occurrence "determination_id").

Definition empty_document : document := {|
  doc_project := Some {| pd_id := Some 3; pd_name := Some "Moths" |};
  doc_sites := Some []; doc_devices := Some []; doc_storage_sources := Some [];
  doc_deployments := Some []; doc_events := Some []; doc_taxa := Some [];
  doc_taxa_lists := Some []; doc_tags := Some []; doc_source_images := Some [];
  doc_collections := Some []; doc_algorithms := Some []; doc_occurrences := Some [];
  doc_detections := Some []; doc_classifications := Some [];
  doc_identifications := Some []; doc_processing_services := Some [];
  doc_pipelines := Some []; doc_pipeline_configs := Some []
|}.

Definition default_options : options := {|
  opt_user := "importer@test.com"; opt_project_name := None;
  opt_skip_images := false; opt_skip_ml_data := false
|}.

(** A document whose only classification has no ["detection_id"] key:
    the import raises [KeyError] after the project, a site and a
    deployment were written. *)
Definition broken_document : document := {|
  doc_project := Some {| pd_id := Some 3; pd_name := Some "Moths" |};
  doc_sites := Some [ {| s_id := Some 1; s_name := Some "Site" |} ];
  doc_devices := Some []; doc_storage_sources := Some [];
  doc_deployments := Some [ {| d_id := Some 4; d_name := Some "Trap";
                               d_research_site_id := Some 1; d_device_id := None;
                               d_data_source_id := None |} ];
  doc_events := Some []; doc_taxa := Some [];
  doc_taxa_lists := Some []; doc_tags := Some []; doc_source_images := Some [];
  doc_collections := Some []; doc_algorithms := Some []; doc_occurrences := Some [];
  doc_detections := Some [];
  doc_classifications := Some [ {| cl_id := Some 1; cl_detection_id := None;
                                   cl_taxon_id := None; cl_algorithm_id := None |} ];
  doc_identifications := Some []; doc_processing_services := Some [];
  doc_pipelines := Some []; doc_pipeline_configs := Some []
|}.

(** One event whose deployment is not in the document. *)
Definition orphan_event : event_data :=
  {| e_id := Some 5; e_deployment_id := Some (Some 44); e_group_by := Some "night" |}.

Definition orphan_document : document := {|
  doc_project := Some {| pd_id := Some 3; pd_name := Some "Moths" |};
  doc_sites := Some []; doc_devices := Some []; doc_storage_sources := Some [];
  doc_deployments := Some []; doc_events := Some [orphan_event]; doc_taxa := Some [];
  doc_taxa_lists := Some []; doc_tags := Some []; doc_source_images := Some [];
  doc_collections := Some []; doc_algorithms := Some []; doc_occurrences := Some [];
  doc_detections := Some []; doc_classifications := Some [];
  doc_identifications := Some []; doc_processing_services := Some [];
  doc_pipelines := Some []; doc_pipeline_configs := Some []
|}.

(** A reference that [self.id_maps[k].get(ref)] resolves to nothing, or
    to an identity that counts as false. *)
Definition unresolved (k : model) (ref : option Z) (s : state) : Prop :=
  truthy (ref ≫= λ i, id_maps s k !! i) = false.

(** A project with this name exists. *)
Definition name_taken (s : state) (name : string) : Prop :=
  ∃ r, r ∈ tables s Project ∧ col r "name" = VStr name.

(** A database in which the names "Moths" and "Moths (1)" are taken. *)
Definition two_moths : state :=
  set_tables <[Project := [Row 1 [("name", VStr "Moths"); ("owner", VInt 7)];
                           Row 2 [("name", VStr "Moths (1)"); ("owner", VInt 7)]]]>
    db_with_user.

(* ===================================================================== *)
(** ** What an import may write *)
(* ===================================================================== *)

(** The natural key by which a kind is merged: the name of a Taxon,
    key and version of an Algorithm, the endpoint of a
    ProcessingService, name and version of a Pipeline. The other kinds
    have none. *)
Definition natural_key (k : model) (r : row) : list val :=
  match k with
  | Taxon => [col r "name"]
  | Algorithm => [col r "key"; col r "version"]
  | ProcessingService => [col r "endpoint_url"]
  | Pipeline => [col r "name"; col r "version"]
  | _ => []
  end.

(** A row of the table has this natural key. *)
Definition has_key (s : state) (k : model) (key : list val) : Prop :=
  ∃ r, r ∈ tables s k ∧ natural_key k r = key.

(** A row of the table has this primary key. *)
Definition has_row (s : state) (k : model) (i : Z) : Prop :=
  ∃ r, r ∈ tables s k ∧ pk r = i.

(** The natural keys of the records of a document. *)
Definition taxon_key (t : taxon_data) : option (list val) :=
  name ← t_name t; Some [VStr name].
Definition algo_key (a : algo_data) : option (list val) :=
  key ← al_key a; version ← al_version a; Some [VStr key; VInt version].
Definition service_key (p : service_data) : option (list val) :=
  url ← ps_endpoint_url p; Some [VStr url].
Definition pipeline_key (p : pipeline_data) : option (list val) :=
  name ← pl_name p; version ← pl_version p; Some [VStr name; VInt version].

Definition doc_keys (doc : document) (k : model) : list (list val) :=
  match k with
  | Taxon => omap taxon_key (default [] (doc_taxa doc))
  | Algorithm => omap algo_key (default [] (doc_algorithms doc))
  | ProcessingService => omap service_key (default [] (doc_processing_services doc))
  | Pipeline => omap pipeline_key (default [] (doc_pipelines doc))
  | _ => []
  end.

Definition images_imported (options : options) : Prop :=
  opt_skip_images options = false.

Definition ml_imported (options : options) : Prop :=
  opt_skip_ml_data options = false ∧ opt_skip_images options = false.

(** The kinds of which the importer creates a row for every record it
    does not skip. *)
Definition always_create (k : model) : bool :=
  match k with
  | Site | Device | S3StorageSource | Deployment | Event | TaxaList | Tag
  | SourceImage | SourceImageCollection | Occurrence | Detection
  | Classification | Identification => true
  | _ => false
  end.

(** Whether a kind is written under the given options. *)
Definition imported (options : options) (k : model) : Prop :=
  match k with
  | SourceImage | SourceImageCollection => images_imported options
  | Algorithm | AlgorithmCategoryMap | Occurrence | Detection | Classification
  | Identification => ml_imported options
  | User | Project => False
  | _ => True
  end.

(** The column that ties a row to the project or the user of the
    import. *)
Definition owner_column (u p : Z) (k : model) (r : row) : Prop :=
  match k with
  | Site | Device | S3StorageSource | Deployment | Event | Tag | SourceImage
  | SourceImageCollection | Occurrence | ProjectPipelineConfig =>
      col r "project" = VInt p
  | Identification => col r "user" = VInt u
  | _ => True
  end.

(** The writes of [import_data] after [import_project], for the user
    [u], the new project [p], the natural keys [keys] of the document
    and the sequences [seq0] at the start:
    - a row is created only for an imported kind, with the project or
      user of the import, and for a merged kind only with a key of the
      document that no row has;
    - only Taxon and Occurrence rows are saved, over a row with the same
      primary key and natural key;
    - only the new project is added to a [projects] field;
    - a Pipeline's algorithms are set only to a list with a registered
      algorithm;
    - an identity is registered to a row created after [seq0] for an
      always-create kind, to a row of the table for a merged kind, and
      to a row of the new project for a pipeline configuration. *)
Definition import_writes (u p : Z) (options : options)
    (keys : model → list (list val)) (seq0 : model → Z)
    (s : state) (w : write) : Prop :=
  match w with
  | Create k kwargs =>
      imported options k
      ∧ owner_column u p k (Row 0 kwargs)
      ∧ match k with
        | Taxon | Algorithm | ProcessingService | Pipeline =>
            natural_key k (Row 0 kwargs) ∈ keys k
            ∧ ¬ has_key s k (natural_key k (Row 0 kwargs))
        | _ => True
        end
  | Save k o =>
      (k = Taxon ∨ k = Occurrence) ∧ imported options k
      ∧ ∃ r, r ∈ tables s k ∧ pk r = pk o ∧ natural_key k r = natural_key k o
  | Add rel owner other =>
      (rel = Taxon_projects ∨ rel = TaxaList_projects ∨ rel = ProcessingService_projects)
      ∧ other = p
  | SetTo rel owner ids =>
      rel = TaxaList_taxa ∨ rel = Tag_taxa
      ∨ (rel = SourceImageCollection_images ∧ images_imported options)
      ∨ (rel = Pipeline_algorithms
         ∧ ∃ i old, i ∈ ids ∧ id_maps s Algorithm !! old = Some i)
  | Register k old new =>
      imported options k
      ∧ match k with
        | AlgorithmCategoryMap => False
        | ProjectPipelineConfig =>
            ∃ r, r ∈ tables s k ∧ pk r = new ∧ col r "project" = VInt p
        | _ =>
            if always_create k then seq0 k ≤ new < seq s k
            else has_row s k new
        end
  end.

(** The invariant of an import: the state was reached by such writes. *)
Definition import_inv (u p : Z) (options : options)
    (keys : model → list (list val)) (s0 s : state) : Prop :=
  reach (import_writes u p options keys (seq s0)) s0 s.

(** A table is well formed when its primary keys are distinct, positive
    and below the next value of its sequence. *)
Definition wf_table (s : state) (k : model) : Prop :=
  NoDup (pk <$> tables s k)
  ∧ 0 < seq s k
  ∧ ∀ r, r ∈ tables s k → 0 < pk r < seq s k.

Definition wf (s : state) : Prop := ∀ k, wf_table s k.

(** A row of the table has this primary key and this natural key. *)
Definition keyed (s : state) (k : model) (i : Z) (key : list val) : Prop :=
  ∃ r, r ∈ tables s k ∧ pk r = i ∧ natural_key k r = key.

(** The invariant of the two loops of [import_taxa]: every object in
    [taxa_by_old_id] has its row, with its name. *)
Definition taxa_inv (u p : Z) (options : options)
    (keys : model → list (list val)) (s0 : state)
    (taxa_by_old_id : gmap Z row) (s : state) : Prop :=
  import_inv u p options keys s0 s
  ∧ ∀ old o, taxa_by_old_id !! old = Some o →
             keyed s Taxon (pk o) (natural_key Taxon o).

(** The state [import_project] leaves: the project row, the user as a
    member, the identity of the project. *)
Definition project_row (name : string) (user : row) (s : state) : row :=
  Row (seq s Project) [("name", VStr name); ("owner", VInt (pk user))].

Definition project_created (name : string) (old : Z) (user : row) (s : state) : state :=
  perform (Register Project old (seq s Project))
    (perform (Add Project_members (seq s Project) (pk user))
       (perform (Create Project [("name", VStr name); ("owner", VInt (pk user))]) s)).

(** What a run of [import_data] from [s0] to [s'] did: it created the
    project under a free name, then made writes of an import. *)
Definition imported_from (doc : document) (user : row) (options : options)
    (s0 s' : state) : Prop :=
  ∃ name old,
    ¬ name_taken s0 name
    ∧ import_inv (pk user) (seq s0 Project) options (doc_keys doc)
        (project_created name old user s0) s'.

(** A property that every write of an import keeps. *)
Definition stable (W : state → write → Prop) (P : state → Prop) : Prop :=
  ∀ s w, W s w → P s → P (perform w s).

(* ===================================================================== *)
(** ** The rows of a project *)
(* ===================================================================== *)

(** [Model.objects.filter(project=p)] *)
Definition of_project (k : model) (p : Z) (s : state) : list row :=
  filter (λ r, col r "project" = VInt p) (tables s k).

(** [Detection.objects.filter(source_image__project=p)] *)
Definition detections_of_project (p : Z) (s : state) : list row :=
  filter (λ d, Exists (λ img, col d "source_image_id" = VInt (pk img))
                 (of_project SourceImage p s))
    (tables s Detection).

(** [Classification.objects.filter(detection__source_image__project=p)] *)
Definition classifications_of_project (p : Z) (s : state) : list row :=
  filter (λ c, Exists (λ d, col c "detection_id" = VInt (pk d))
                 (detections_of_project p s))
    (tables s Classification).

(** Referential integrity, as far as the import relies on it: no row
    refers to a project that does not exist yet, and no detection to a
    source image that does not exist yet. *)
Definition no_dangling (s : state) : Prop :=
  (∀ k r i, r ∈ tables s k → col r "project" = VInt i → i < seq s Project)
  ∧ (∀ d i, d ∈ tables s Detection → col d "source_image_id" = VInt i →
            i < seq s SourceImage)
  ∧ (∀ i a, (i, a) ∈ links s Pipeline_algorithms → i < seq s Pipeline).

(** The rows of a table are the rows [T] followed by rows created from
    the sequence value [n] on. *)
Definition appended (k : model) (T : list row) (n : Z) (s : state) : Prop :=
  n ≤ seq s k
  ∧ ∃ new, tables s k = T ++ new ∧ ∀ r, r ∈ new → n ≤ pk r.

(** A document with a deployment, an event, a taxon, a source image, an
    occurrence with a detection and a classification, one
    identification, and a pipeline with its service and configuration. *)
Definition identified_document : document := {|
  doc_project := Some {| pd_id := Some 3; pd_name := Some "Moths" |};
  doc_sites := Some [ {| s_id := Some 1; s_name := Some "Site" |} ];
  doc_devices := Some []; doc_storage_sources := Some [];
  doc_deployments := Some [ {| d_id := Some 4; d_name := Some "Trap";
                               d_research_site_id := Some 1; d_device_id := None;
                               d_data_source_id := None |} ];
  doc_events := Some [ {| e_id := Some 5; e_deployment_id := Some (Some 4);
                          e_group_by := Some "night" |} ];
  doc_taxa := Some [ {| t_id := Some 10; t_name := Some "Lepidoptera";
                        t_parent_id := None; t_synonym_of_id := None |};
                     {| t_id := Some 11; t_name := Some "Noctuidae";
                        t_parent_id := Some 10; t_synonym_of_id := None |} ];
  doc_taxa_lists := Some []; doc_tags := Some [];
  doc_source_images := Some [ {| im_id := Some 20; im_deployment_id := Some (Some 4);
                                 im_event_id := Some 5; im_path := Some "a.jpg" |} ];
  doc_collections := Some [];
  doc_algorithms := Some [ {| al_id := Some 30; al_name := Some "Detector";
                              al_key := Some "detector"; al_version := Some 1;
                              al_category_map_data := None |} ];
  doc_occurrences := Some [ {| o_id := Some 40; o_event_id := Some 5;
                               o_deployment_id := Some 4;
                               o_determination_id := Some 11 |} ];
  doc_detections := Some [ {| dt_id := Some 50; dt_source_image_id := Some (Some 20);
                              dt_occurrence_id := Some 40;
                              dt_detection_algorithm_id := Some 30 |} ];
  doc_classifications := Some [ {| cl_id := Some 60; cl_detection_id := Some (Some 50);
                                   cl_taxon_id := Some 11; cl_algorithm_id := Some 30 |} ];
  doc_identifications := Some [ {| i_id := Some 70; i_occurrence_id := Some (Some 40);
                                   i_taxon_id := Some 11;
                                   i_agreed_with_identification_id := None;
                                   i_agreed_with_prediction_id := Some 60 |} ];
  doc_processing_services := Some [ {| ps_id := Some 80; ps_name := Some "Service";
                                       ps_endpoint_url := Some "http://ml" |} ];
  doc_pipelines := Some [ {| pl_id := Some 90; pl_name := Some "Moth pipeline";
                             pl_version := Some 1; pl_algorithm_ids := Some [30] |} ];
  doc_pipeline_configs := Some [ {| pc_id := Some 95; pc_pipeline_id := Some (Some 90) |} ]
|}.

(** The identity [i] of kind [k] resolves to an identity that counts as
    true. *)
Definition registered (s : state) (k : model) (i : Z) : Prop :=
  ∃ n, id_maps s k !! i = Some n ∧ n ≠ 0.

(** A property that holds after an import's writes when it held before,
    from a well-formed state. *)
Definition kept (u p : Z) (options : options) (keys : model → list (list val))
    (P : state → Prop) : Prop :=
  ∀ s s', wf s → import_inv u p options keys s s' → P s → P s'.

(** What an import that returned has done for the records of the
    document, besides its writes being those of an import:
    - every natural key of the document of an imported merged kind has
      a row;
    - every deployment is registered;
    - a source image whose deployment is in the document has given the
      project a source image row, when images are imported;
    - every processing service has a row with its endpoint, linked to
      the project, and is registered;
    - every pipeline is registered;
    - a pipeline configuration whose pipeline is in the document has
      given the project a configuration row. *)
Definition live (doc : document) (options : options) (p : Z) (s' : state) : Prop :=
  (∀ k key, imported options k → key ∈ doc_keys doc k → has_key s' k key)
  ∧ (∀ d i, d ∈ default [] (doc_deployments doc) → d_id d = Some i →
            registered s' Deployment i)
  ∧ (images_imported options →
     ∀ img d i, img ∈ default [] (doc_source_images doc) →
                d ∈ default [] (doc_deployments doc) →
                im_deployment_id img = Some (Some i) → d_id d = Some i →
                ∃ r, r ∈ tables s' SourceImage ∧ col r "project" = VInt p)
  ∧ (∀ svc, svc ∈ default [] (doc_processing_services doc) →
       (∀ url, ps_endpoint_url svc = Some url →
          ∃ r, r ∈ tables s' ProcessingService ∧ col r "endpoint_url" = VStr url
               ∧ (pk r, p) ∈ links s' ProcessingService_projects)
       ∧ (∀ i, ps_id svc = Some i → registered s' ProcessingService i))
  ∧ (∀ pl i, pl ∈ default [] (doc_pipelines doc) → pl_id pl = Some i →
             registered s' Pipeline i)
  ∧ (∀ cfg pl i, cfg ∈ default [] (doc_pipeline_configs doc) →
                 pl ∈ default [] (doc_pipelines doc) →
                 pc_pipeline_id cfg = Some (Some i) → pl_id pl = Some i →
                 ∃ r n, r ∈ tables s' ProjectPipelineConfig
                        ∧ col r "project" = VInt p
                        ∧ col r "pipeline_id" = VInt n ∧ n ≠ 0).

Definition skip_ml_options : options := {|
  opt_user := "importer@test.com"; opt_project_name := None;
  opt_skip_images := false; opt_skip_ml_data := true
|}.

(** A document whose only source image refers to a deployment that is
    not in the document. *)
Definition orphan_image_document : document := {|
  doc_project := Some {| pd_id := Some 3; pd_name := Some "Moths" |};
  doc_sites := Some []; doc_devices := Some []; doc_storage_sources := Some [];
  doc_deployments := Some []; doc_events := Some []; doc_taxa := Some [];
  doc_taxa_lists := Some []; doc_tags := Some [];
  doc_source_images := Some [ {| im_id := Some 20; im_deployment_id := Some (Some 4);
                                 im_event_id := None; im_path := Some "a.jpg" |} ];
  doc_collections := Some []; doc_algorithms := Some []; doc_occurrences := Some [];
  doc_detections := Some []; doc_classifications := Some [];
  doc_identifications := Some []; doc_processing_services := Some [];
  doc_pipelines := Some []; doc_pipeline_configs := Some []
|}.

(* ===================================================================== *)
(** ** Reasoning about commands: rules *)
(* ===================================================================== *)

Lemma wp_run {A} (m : M A) Q s a s' :
  wp m Q s → m s = (Ok a, s') → Q a s'.
Proof. unfold wp. intros H E. by rewrite E in H. Qed.

Lemma wp_mono {A} (m : M A) (Q Q' : A → state → Prop) s :
  wp m Q s → (∀ a s', Q a s' → Q' a s') → wp m Q' s.
Proof. unfold wp. destruct (m s) as [[a|e] s']; auto. Qed.

Lemma wp_ret {A} (a : A) Q s : Q a s → wp (ret a) Q s.
Proof. done. Qed.

Lemma wp_bind {A B} (m : M A) (k : A → M B) Q s :
  wp m (λ a s', wp (k a) Q s') s → wp (bind m k) Q s.
Proof. unfold wp, bind. destruct (m s) as [[a|e] s']; auto. Qed.

Lemma wp_subscript {A} key (f : option A) Q s :
  (∀ a, f = Some a → Q a s) → wp (subscript key f) Q s.
Proof. destruct f; cbn; auto. Qed.

Lemma wp_for_each {A} (I : state → Prop) (l : list A) body Q s :
  I s →
  (∀ x s, x ∈ l → I s → wp (body x) (λ _, I) s) →
  (∀ s, I s → Q tt s) →
  wp (for_each l body) Q s.
Proof.
  intros HI Hbody HQ. revert s HI.
  induction l as [|x l IH]; intros s HI; cbn.
  - by apply HQ.
  - apply wp_bind. eapply wp_mono; [apply Hbody; [left | done] |].
    cbn. intros _ s' HI'. apply IH; [|done].
    intros y s'' Hy. apply Hbody. by right.
Qed.

Lemma wp_for_each_with {A B} (I : B → state → Prop) (l : list A) b body Q s :
  I b s →
  (∀ x b s, x ∈ l → I b s → wp (body b x) I s) →
  (∀ b s, I b s → Q b s) →
  wp (for_each_with l b body) Q s.
Proof.
  intros HI Hbody HQ. revert b s HI.
  induction l as [|x l IH]; intros b s HI; cbn.
  - by apply HQ.
  - apply wp_bind. eapply wp_mono; [apply Hbody; [left | done] |].
    cbn. intros b' s' HI'. apply IH; [|done].
    intros y b'' s'' Hy. apply Hbody. by right.
Qed.

(** The loop rule with an invariant over the records already done. *)
Lemma wp_for_each_prefix {A} (I : list A → state → Prop) (l : list A) body Q s :
  I [] s →
  (∀ pre x s, x ∈ l → I pre s → wp (body x) (λ _, I (pre ++ [x])) s) →
  (∀ s, I l s → Q tt s) →
  wp (for_each l body) Q s.
Proof.
  intros HI Hbody HQ.
  assert (∀ post pre s, pre ++ post = l → I pre s → wp (for_each post body) Q s) as H.
  { induction post as [|x post IH]; intros pre s1 E HI1; cbn.
    - rewrite app_nil_r in E. subst pre. by apply HQ.
    - apply wp_bind. eapply wp_mono.
      + apply Hbody; [|done]. rewrite <- E. apply elem_of_app. right. left.
      + cbn. intros _ s2 HI2. apply (IH (pre ++ [x])); [|done].
        by rewrite <- app_assoc. }
  by apply (H l []).
Qed.

Lemma wp_for_each_with_prefix {A B} (I : list A → B → state → Prop) (l : list A) b body Q s :
  I [] b s →
  (∀ pre x b s, x ∈ l → I pre b s → wp (body b x) (I (pre ++ [x])) s) →
  (∀ b s, I l b s → Q b s) →
  wp (for_each_with l b body) Q s.
Proof.
  intros HI Hbody HQ.
  assert (∀ post pre b s, pre ++ post = l → I pre b s →
                          wp (for_each_with post b body) Q s) as H.
  { induction post as [|x post IH]; intros pre b1 s1 E HI1; cbn.
    - rewrite app_nil_r in E. subst pre. by apply HQ.
    - apply wp_bind. eapply wp_mono.
      + apply Hbody; [|done]. rewrite <- E. apply elem_of_app. right. left.
      + cbn. intros b2 s2 HI2. apply (IH (pre ++ [x])); [|done].
        by rewrite <- app_assoc. }
  by apply (H l []).
Qed.

Lemma wp_conj {A} (m : M A) (Q1 Q2 : A → state → Prop) s :
  wp m Q1 s → wp m Q2 s → wp m (λ a s', Q1 a s' ∧ Q2 a s') s.
Proof. unfold wp. by destruct (m s) as [[a|e] s']. Qed.

Lemma reach_refl W s : reach W s s.
Proof. apply rtc_refl. Qed.

Lemma reach_step W s0 s w : reach W s0 s → W s w → reach W s0 (perform w s).
Proof. intros H Hw. eapply rtc_r; [done |]. eauto. Qed.

Lemma reach_trans W s0 s1 s2 : reach W s0 s1 → reach W s1 s2 → reach W s0 s2.
Proof. intros H1 H2. unfold reach in *. by etrans. Qed.

Lemma reach_mono (W W' : state → write → Prop) s s' :
  (∀ s w, W s w → W' s w) → reach W s s' → reach W' s s'.
Proof.
  intros HW. induction 1 as [|s1 s2 s3 (w & Hw & ->) _ IH]; [apply rtc_refl |].
  eapply rtc_l; [|done]. eauto.
Qed.

(** An invariant that every allowed write keeps holds in every state
    reached. *)
Lemma reach_invariant W (I : state → Prop) s s' :
  (∀ s w, W s w → I s → I (perform w s)) →
  reach W s s' → I s → I s'.
Proof.
  intros HW. induction 1 as [|s1 s2 s3 (w & Hw & ->) _ IH]; [done |].
  intros HI. apply IH. by eapply HW.
Qed.

(** The ORM and the identity maps always return. *)
Lemma wp_objects_create k kwargs Q s :
  Q (Row (seq s k) kwargs) (perform (Create k kwargs) s) → wp (objects_create k kwargs) Q s.
Proof. done. Qed.

Lemma wp_objects_filter k p Q s :
  Q (filter (λ r, p r = true) (tables s k)) s → wp (objects_filter k p) Q s.
Proof. done. Qed.

Lemma wp_objects_first k p Q s :
  Q (head (filter (λ r, p r = true) (tables s k))) s → wp (objects_first k p) Q s.
Proof. done. Qed.

Lemma wp_objects_exists k p Q s :
  Q (match filter (λ r, p r = true) (tables s k) with [] => false | _ => true end) s →
  wp (objects_exists k p) Q s.
Proof. done. Qed.

Lemma wp_save k o Q s : Q tt (perform (Save k o) s) → wp (save k o) Q s.
Proof. done. Qed.

Lemma wp_m2m_add rel a b Q s : Q tt (perform (Add rel a b) s) → wp (m2m_add rel a b) Q s.
Proof. done. Qed.

Lemma wp_m2m_set rel a ids Q s :
  Q tt (perform (SetTo rel a ids) s) → wp (m2m_set rel a ids) Q s.
Proof. done. Qed.

Lemma wp_id_map_get k old Q s :
  Q (old ≫= λ i, id_maps s k !! i) s → wp (id_map_get k old) Q s.
Proof. done. Qed.

Lemma wp_id_map_set k old new Q s :
  Q tt (perform (Register k old new) s) → wp (id_map_set k old new) Q s.
Proof. done. Qed.

Lemma wp_resolve_all k ids Q s :
  Q (omap (resolve (id_maps s k)) ids) s → wp (resolve_all k ids) Q s.
Proof. done. Qed.

(** One step of symbolic execution of a command. *)
Ltac wp_step :=
  lazymatch goal with
  | |- wp (bind _ _) _ _ => apply wp_bind
  | |- wp (ret _) _ _ => apply wp_ret
  | |- wp continue _ _ => apply wp_ret
  | |- wp (raise _) _ _ => exact I
  | |- wp (subscript _ _) _ _ => apply wp_subscript; intros ? ?
  | |- wp (objects_create _ _) _ _ => apply wp_objects_create
  | |- wp (objects_filter _ _) _ _ => apply wp_objects_filter
  | |- wp (objects_first _ _) _ _ => apply wp_objects_first
  | |- wp (objects_exists _ _) _ _ => apply wp_objects_exists
  | |- wp (save _ _) _ _ => apply wp_save
  | |- wp (m2m_add _ _ _) _ _ => apply wp_m2m_add
  | |- wp (m2m_set _ _ _) _ _ => apply wp_m2m_set
  | |- wp (id_map_get _ _) _ _ => apply wp_id_map_get
  | |- wp (id_map_set _ _ _) _ _ => apply wp_id_map_set
  | |- wp (resolve_all _ _) _ _ => apply wp_resolve_all
  | |- wp (if ?b then _ else _) _ _ => destruct b eqn:?
  | |- wp (match ?x with _ => _ end) _ _ => destruct x eqn:?
  end.

Ltac wp_steps := repeat (wp_step; cbv beta).

(** Reading a state after writes. *)
Ltac simpl_state :=
  cbn [perform set_tables set_seq set_links set_id_maps tables seq links id_maps pk cols] in *;
  rewrite ?fn_lookup_insert in *;
  rewrite ?fn_lookup_insert_ne in * by done.

(* ===================================================================== *)
(** ** Atomicity *)
(* ===================================================================== *)

Lemma atomic_raise {A} (body : M A) s e s1 :
  body s = (Raise e, s1) → atomic body s = (Raise e, rollback s s1).
Proof. unfold atomic. by intros ->. Qed.

Lemma get_user_state options s user s' :
  get_user options s = (Ok user, s') → s' = s.
Proof.
  unfold get_user, objects_get, bind, objects_filter.
  destruct (filter _ _) as [|r [|r' l]]; cbn; intros [=]; done.
Qed.

(** C1. If [import_data] raises anywhere in the write sequence, [handle]
    raises the same exception and leaves every table and every
    many-to-many relation as it was before the import. *)
Theorem import_is_atomic rule export_data options s user e s1 :
  get_user options s = (Ok user, s) →
  import_data rule export_data user options s = (Raise e, s1) →
  ∃ s', handle rule (Some export_data) options s = (Raise e, s')
        ∧ tables s' = tables s ∧ links s' = links s.
Proof.
  intros Huser Himport. exists (rollback s s1). split; [|done].
  unfold handle, bind at 1. cbn. unfold bind at 1. rewrite Huser.
  unfold bind. by rewrite (atomic_raise _ _ _ _ Himport).
Qed.

Lemma import_is_atomic_witness :
  ∃ s1, tables s1 ≠ tables db_with_user
        ∧ import_data keep_determination broken_document importer default_options
            db_with_user = (Raise (KeyError "detection_id"), s1)
        ∧ ∃ s', handle keep_determination (Some broken_document) default_options
                  db_with_user = (Raise (KeyError "detection_id"), s')
                ∧ tables s' = tables db_with_user ∧ links s' = links db_with_user.
Proof.
  eexists. split; [|split].
  2: { vm_compute. reflexivity. }
  - intros E. apply (f_equal (λ t, length (t Project))) in E. vm_compute in E. discriminate.
  - eapply import_is_atomic; vm_compute; reflexivity.
Defined.

(* ===================================================================== *)
(** ** Records whose mandatory reference does not resolve *)
(* ===================================================================== *)

(** A record on which the loop body does nothing can be taken out of the
    list, when the bodies before it keep what makes it so. *)
Lemma for_each_skip {A} (I : state → Prop) (l1 : list A) x l2 body s :
  I s →
  (∀ y, preserves I (body y)) →
  (∀ s, I s → body x s = (Ok tt, s)) →
  for_each (l1 ++ x :: l2) body s = for_each (l1 ++ l2) body s.
Proof.
  intros HI Hbody Hx. revert s HI.
  induction l1 as [|y l1 IH]; intros s HI; cbn.
  - unfold bind. by rewrite (Hx s HI).
  - unfold bind. specialize (Hbody y s HI). unfold wp in Hbody.
    destruct (body y s) as [[[]|e] s1]; [by apply IH | done].
Qed.


(** The body of a loop, run on a record whose reference is unresolved. *)
Ltac run_skipped HI :=
  unfold unresolved in *;
  unfold bind, subscript, id_map_get, ret, continue;
  repeat first
    [ progress cbn
    | rewrite HI
    | match goal with H : _ = Some _ |- _ => rewrite H end
    | match goal with H : truthy _ = false |- _ => rewrite H end
    | rewrite orb_true_r ];
  try done.

Ltac skip_record k s :=
  apply (for_each_skip (λ s', id_maps s' k = id_maps s k));
  [ done
  | intros ? ? ?; wp_steps; simpl_state; done
  | let HI := fresh "HI" in intros ? HI; run_skipped HI ].

Lemma import_events_skip l1 e l2 project s ref :
  e_deployment_id e = Some ref → unresolved Deployment ref s →
  import_events (l1 ++ e :: l2) project s = import_events (l1 ++ l2) project s.
Proof. intros. unfold import_events. skip_record Deployment s. Qed.

Lemma import_source_images_skip l1 img l2 project s ref :
  im_deployment_id img = Some ref → unresolved Deployment ref s →
  import_source_images (l1 ++ img :: l2) project s
  = import_source_images (l1 ++ l2) project s.
Proof. intros. unfold import_source_images. skip_record Deployment s. Qed.

Lemma import_occurrences_skip l1 occ l2 project s :
  unresolved Event (o_event_id occ) s ∨ unresolved Deployment (o_deployment_id occ) s →
  import_occurrences (l1 ++ occ :: l2) project s
  = import_occurrences (l1 ++ l2) project s.
Proof.
  intros [H|H]; unfold import_occurrences.
  - apply (for_each_skip (λ s', id_maps s' Event = id_maps s Event));
      [done | intros ? ? ?; wp_steps; simpl_state; done | intros ? HI; run_skipped HI].
  - apply (for_each_skip (λ s', id_maps s' Deployment = id_maps s Deployment));
      [done | intros ? ? ?; wp_steps; simpl_state; done | intros ? HI; run_skipped HI].
Qed.

Lemma import_detections_skip l1 det l2 project s ref :
  dt_source_image_id det = Some ref → unresolved SourceImage ref s →
  import_detections (l1 ++ det :: l2) project s
  = import_detections (l1 ++ l2) project s.
Proof. intros. unfold import_detections. skip_record SourceImage s. Qed.

Lemma import_classifications_skip l1 cls l2 project s ref :
  cl_detection_id cls = Some ref → unresolved Detection ref s →
  import_classifications (l1 ++ cls :: l2) project s
  = import_classifications (l1 ++ l2) project s.
Proof. intros. unfold import_classifications. skip_record Detection s. Qed.

Lemma import_identifications_skip l1 idn l2 project user s ref :
  i_occurrence_id idn = Some ref → unresolved Occurrence ref s →
  import_identifications (l1 ++ idn :: l2) project user s
  = import_identifications (l1 ++ l2) project user s.
Proof. intros. unfold import_identifications. skip_record Occurrence s. Qed.

Lemma import_pipeline_configs_skip l1 cfg l2 project s ref :
  pc_pipeline_id cfg = Some ref → unresolved Pipeline ref s →
  import_pipeline_configs (l1 ++ cfg :: l2) project s
  = import_pipeline_configs (l1 ++ l2) project s.
Proof. intros. unfold import_pipeline_configs. skip_record Pipeline s. Qed.

(** C3 (as the code has it). A record of a kind with a mandatory parent
    whose reference is in the record but does not resolve is skipped
    entirely: the import goes on exactly as if the record were not in
    the document, so no row is created, no identity is registered, and
    nothing is counted. *)
Theorem unresolved_record_is_skipped project user s :
  (∀ l1 e l2 ref,
     e_deployment_id e = Some ref → unresolved Deployment ref s →
     import_events (l1 ++ e :: l2) project s = import_events (l1 ++ l2) project s)
  ∧ (∀ l1 img l2 ref,
     im_deployment_id img = Some ref → unresolved Deployment ref s →
     import_source_images (l1 ++ img :: l2) project s
     = import_source_images (l1 ++ l2) project s)
  ∧ (∀ l1 occ l2,
     unresolved Event (o_event_id occ) s ∨ unresolved Deployment (o_deployment_id occ) s →
     import_occurrences (l1 ++ occ :: l2) project s
     = import_occurrences (l1 ++ l2) project s)
  ∧ (∀ l1 det l2 ref,
     dt_source_image_id det = Some ref → unresolved SourceImage ref s →
     import_detections (l1 ++ det :: l2) project s
     = import_detections (l1 ++ l2) project s)
  ∧ (∀ l1 cls l2 ref,
     cl_detection_id cls = Some ref → unresolved Detection ref s →
     import_classifications (l1 ++ cls :: l2) project s
     = import_classifications (l1 ++ l2) project s)
  ∧ (∀ l1 idn l2 ref,
     i_occurrence_id idn = Some ref → unresolved Occurrence ref s →
     import_identifications (l1 ++ idn :: l2) project user s
     = import_identifications (l1 ++ l2) project user s)
  ∧ (∀ l1 cfg l2 ref,
     pc_pipeline_id cfg = Some ref → unresolved Pipeline ref s →
     import_pipeline_configs (l1 ++ cfg :: l2) project s
     = import_pipeline_configs (l1 ++ l2) project s).
Proof.
  repeat split; intros.
  - by eapply import_events_skip.
  - by eapply import_source_images_skip.
  - by eapply import_occurrences_skip.
  - by eapply import_detections_skip.
  - by eapply import_classifications_skip.
  - by eapply import_identifications_skip.
  - by eapply import_pipeline_configs_skip.
Qed.

Lemma unresolved_record_is_skipped_witness :
  import_events ([] ++ orphan_event :: []) importer db_with_user
  = import_events ([] ++ []) importer db_with_user.
Proof.
  apply (proj1 (unresolved_record_is_skipped importer importer db_with_user)
           [] orphan_event [] (Some 44)); reflexivity.
Defined.

(** C3, as stated, fails: the import of a document with one event whose
    deployment does not resolve skips the event, and returns the same
    summary and the same final state as the import of the document
    without that event. Nothing records that a record was dropped. *)
Lemma dropped_record_is_not_counted :
  let run doc := call_command keep_determination (Some doc) default_options db_with_user in
  e_deployment_id orphan_event = Some (Some 44)
  ∧ unresolved Deployment (Some 44) (run orphan_document).2
  ∧ tables (run orphan_document).2 Event = []
  ∧ (∃ lines, (run orphan_document).1 = Ok lines)
  ∧ run orphan_document = run empty_document.
Proof. vm_compute. repeat split; try reflexivity. by eexists. Qed.

(* ===================================================================== *)
(** ** The project name *)
(* ===================================================================== *)

Lemma string_length_app (a b : string) :
  String.length (a +:+ b) = (String.length a + String.length b)%nat.
Proof. induction a as [|c a IH]; simpl; [done | by f_equal]. Qed.

Lemma string_app_inj_r (a b t : string) : a +:+ t = b +:+ t → a = b.
Proof.
  revert b. induction a as [|c a IH]; intros [|c' b] E.
  - done.
  - apply (f_equal String.length) in E. rewrite !string_length_app in E. simpl in E. lia.
  - apply (f_equal String.length) in E. rewrite !string_length_app in E. simpl in E. lia.
  - simpl in E. injection E as -> E. f_equal. by apply IH.
Qed.

Lemma suffixed_inj base : Inj (=) (=) (suffixed base).
Proof.
  intros m n E. unfold suffixed in E.
  apply (inj (String.app base)) in E. apply (inj (String.app " (")) in E.
  apply string_app_inj_r in E. by apply (inj pretty) in E.
Qed.

Lemma suffixed_ne_base base n : suffixed base n ≠ base.
Proof.
  intros E. apply (f_equal String.length) in E. unfold suffixed in E.
  rewrite !string_length_app in E. cbn in E. lia.
Qed.

Lemma name_taken_dec s name : Decision (name_taken s name).
Proof.
  unfold name_taken.
  destruct (decide (Exists (λ r, col r "name" = VStr name) (tables s Project))) as [H|H].
  - left. by apply Exists_exists in H.
  - right. intros ?. apply H. by apply Exists_exists.
Qed.

Lemma objects_exists_name s name :
  objects_exists Project (col_is "name" (VStr name)) s
  = (Ok (if name_taken_dec s name then true else false), s).
Proof.
  unfold objects_exists. f_equal. f_equal.
  destruct (name_taken_dec s name) as [(r & Hr & Hn)|Hn].
  - destruct (filter _ _) as [|r' l] eqn:E; [|done].
    assert (r ∈ filter (λ r, col_is "name" (VStr name) r = true) (tables s Project)) as Hin.
    { apply list_elem_of_filter. split; [|done]. unfold col_is. by apply bool_decide_eq_true. }
    rewrite E in Hin. by apply elem_of_nil in Hin.
  - destruct (filter _ _) as [|r' l] eqn:E; [done|].
    exfalso. apply Hn. exists r'.
    assert (r' ∈ filter (λ r, col_is "name" (VStr name) r = true) (tables s Project)) as Hin
      by (rewrite E; left).
    apply list_elem_of_filter in Hin as [Hp Hin]. split; [done|].
    unfold col_is in Hp. by apply bool_decide_eq_true in Hp.
Qed.

Lemma while_name_exists_eq fuel base name counter s :
  while_name_exists fuel base name counter s
  = if name_taken_dec s name then
      match fuel with
      | O => (Raise OutOfFuel, s)
      | S fuel => while_name_exists fuel base (suffixed base counter) (counter + 1) s
      end
    else (Ok name, s).
Proof.
  destruct fuel; cbn [while_name_exists]; unfold bind;
    rewrite objects_exists_name; by destruct (name_taken_dec s name).
Qed.

(** The loop returns the first free suffixed name, given fuel for the
    taken ones before it. *)
Lemma while_name_exists_finds s base (d : nat) :
  ∀ (counter : Z) name (fuel : nat),
    name_taken s name →
    (∀ m, counter ≤ m < counter + Z.of_nat d → name_taken s (suffixed base m)) →
    ¬ name_taken s (suffixed base (counter + Z.of_nat d)) →
    (d < fuel)%nat →
    while_name_exists fuel base name counter s
    = (Ok (suffixed base (counter + Z.of_nat d)), s).
Proof.
  induction d as [|d IH]; intros counter name fuel Hname Hbelow Hfree Hfuel.
  - destruct fuel as [|fuel]; [lia|]. rewrite while_name_exists_eq.
    destruct (name_taken_dec s name); [|done].
    rewrite Z.add_0_r in *. rewrite while_name_exists_eq.
    by destruct (name_taken_dec s (suffixed base counter)).
  - destruct fuel as [|fuel]; [lia|]. rewrite while_name_exists_eq.
    destruct (name_taken_dec s name); [|done].
    replace (counter + Z.of_nat (S d)) with ((counter + 1) + Z.of_nat d) in * by lia.
    apply IH; [apply Hbelow; lia | intros m Hm; apply Hbelow; lia | done | lia].
Qed.

(** Below any bound, either every suffixed name is taken or there is a
    first free one. *)
Lemma first_free_suffix s base (n : nat) :
  (∀ d, (d < n)%nat → name_taken s (suffixed base (1 + Z.of_nat d)))
  ∨ ∃ d, (d < n)%nat ∧ ¬ name_taken s (suffixed base (1 + Z.of_nat d))
         ∧ ∀ d', (d' < d)%nat → name_taken s (suffixed base (1 + Z.of_nat d')).
Proof.
  induction n as [|n [IH|(d & Hd & Hfree & Hbelow)]].
  - left. lia.
  - destruct (name_taken_dec s (suffixed base (1 + Z.of_nat n))) as [Hn|Hn].
    + left. intros d Hd. destruct (decide (d = n)) as [->|]; [done | apply IH; lia].
    + right. exists n. split; [lia|]. split; [done|]. intros d' Hd'. by apply IH.
  - right. exists d. split; [lia | done].
Qed.

(** Pigeonhole: the table cannot hold the base name and as many
    suffixed names as it has rows. *)
Lemma suffixes_not_all_taken s base :
  name_taken s base →
  ¬ ∀ d, (d < length (tables s Project))%nat → name_taken s (suffixed base (1 + Z.of_nat d)).
Proof.
  intros Hbase Hall.
  set (n := length (tables s Project)).
  set (names := (λ r, col r "name") <$> tables s Project).
  set (cands := VStr base :: ((λ d, VStr (suffixed base (1 + Z.of_nat d))) <$> List.seq 0%nat n)).
  assert (NoDup cands) as Hnodup.
  { apply NoDup_cons. split.
    - intros Hin. apply list_elem_of_fmap in Hin as (d & E & _).
      injection E as E. symmetry in E. by apply suffixed_ne_base in E.
    - apply NoDup_fmap_2; [|apply NoDup_seq].
      intros d d' E. injection E as E. apply suffixed_inj in E. lia. }
  assert (∀ x, x ∈ cands → x ∈ names) as Hsub.
  { intros x Hx. apply elem_of_cons in Hx as [->|Hx].
    - destruct Hbase as (r & Hr & <-). apply list_elem_of_fmap. eauto.
    - apply list_elem_of_fmap in Hx as (d & -> & Hd). apply elem_of_seq in Hd.
      destruct (Hall d) as (r & Hr & <-); [lia|]. apply list_elem_of_fmap. eauto. }
  apply NoDup_submseteq in Hsub; [|done]. apply submseteq_length in Hsub.
  unfold cands, names in Hsub. cbn in Hsub. rewrite !length_fmap, length_seq in Hsub. lia.
Qed.

(** The loop finds the first free suffix within the fuel of one unit
    per row. *)
Lemma project_name_disambiguation_aux s base :
  name_taken s base →
  ∃ d, (d < length (tables s Project))%nat
       ∧ ¬ name_taken s (suffixed base (1 + Z.of_nat d))
       ∧ (∀ m, 1 ≤ m < 1 + Z.of_nat d → name_taken s (suffixed base m))
       ∧ ∀ fuel, (length (tables s Project) ≤ fuel)%nat →
           while_name_exists fuel base base 1 s
           = (Ok (suffixed base (1 + Z.of_nat d)), s).
Proof.
  intros Hbase.
  destruct (first_free_suffix s base (length (tables s Project)))
    as [Hall|(d & Hd & Hfree & Hbelow)].
  { by destruct (suffixes_not_all_taken s base). }
  assert (∀ m, 1 ≤ m < 1 + Z.of_nat d → name_taken s (suffixed base m)) as Hbelow'.
  { intros m Hm. replace m with (1 + Z.of_nat (Z.to_nat (m - 1))) by lia.
    apply Hbelow. lia. }
  exists d. repeat split; [done.. |].
  intros fuel Hfuel. apply while_name_exists_finds; [done.. | lia].
Qed.

(** C7. When the requested name is taken, the loop of [import_project]
    returns with any fuel that covers the rows of the Project table (the
    fuel [import_project] gives it). The name it returns has the form
    [base (n)], is not in the table, [n] is the first number from 1 for
    which that is so, and the name depends only on the set of names in
    the table. *)
Theorem project_name_disambiguation s base :
  name_taken s base →
  ∃ n : Z,
    1 ≤ n ≤ Z.of_nat (length (tables s Project))
    ∧ (∀ fuel, (length (tables s Project) ≤ fuel)%nat →
         while_name_exists fuel base base 1 s = (Ok (suffixed base n), s))
    ∧ ¬ name_taken s (suffixed base n)
    ∧ (∀ m, 1 ≤ m < n → name_taken s (suffixed base m))
    ∧ (∀ s2 fuel, (∀ x, name_taken s x ↔ name_taken s2 x) →
         (length (tables s2 Project) ≤ fuel)%nat →
         while_name_exists fuel base base 1 s2 = (Ok (suffixed base n), s2)).
Proof.
  intros Hbase.
  pose proof (λ s, project_name_disambiguation_aux s base) as Hfind.
  destruct (Hfind s Hbase) as (d & Hd & Hfree & Hbelow & Hrun).
  exists (1 + Z.of_nat d). repeat split; [lia | lia | done.. |].
  intros s2 fuel Hsame Hfuel.
  destruct (Hfind s2 (proj1 (Hsame base) Hbase)) as (d2 & Hd2 & Hfree2 & Hbelow2 & Hrun2).
  rewrite (Hrun2 fuel Hfuel). do 3 f_equal.
  destruct (Z.lt_total (Z.of_nat d) (Z.of_nat d2)) as [Hlt|[Heq|Hgt]]; [|lia|].
  - exfalso. apply Hfree. apply Hsame. apply Hbelow2. lia.
  - exfalso. apply Hfree2. apply Hsame. apply Hbelow. lia.
Qed.

Lemma project_name_disambiguation_witness :
  ∃ n : Z,
    1 ≤ n ≤ Z.of_nat (length (tables two_moths Project))
    ∧ (∀ fuel, (length (tables two_moths Project) ≤ fuel)%nat →
         while_name_exists fuel "Moths" "Moths" 1 two_moths
         = (Ok (suffixed "Moths" n), two_moths))
    ∧ ¬ name_taken two_moths (suffixed "Moths" n)
    ∧ (∀ m, 1 ≤ m < n → name_taken two_moths (suffixed "Moths" m))
    ∧ (∀ s2 fuel, (∀ x, name_taken two_moths x ↔ name_taken s2 x) →
         (length (tables s2 Project) ≤ fuel)%nat →
         while_name_exists fuel "Moths" "Moths" 1 s2 = (Ok (suffixed "Moths" n), s2)).
Proof.
  apply (project_name_disambiguation two_moths "Moths").
  exists (Row 1 [("name", VStr "Moths"); ("owner", VInt 7)]). split; [|reflexivity].
  vm_compute. left.
Defined.

Lemma filter_all_rows (l : list row) : filter (λ _ : row, true = true) l = l.
Proof. induction l as [|r l IH]; [done|]. rewrite filter_cons_True by done. by f_equal. Qed.

(** The fuel [import_project] gives the loop is always enough. *)
Lemma import_project_has_fuel project_data user options s :
  (import_project project_data user options s).1 ≠ Raise OutOfFuel.
Proof.
  unfold import_project.
  set (get_name := match opt_project_name options with
                   | Some n => if String.eqb n "" then subscript "name" (pd_name project_data) else ret n
                   | None => subscript "name" (pd_name project_data)
                   end).
  assert (∃ r, get_name s = (r, s) ∧ ∀ e, r = Raise e → e ≠ OutOfFuel) as (r & E & Hr).
  { unfold get_name, subscript, ret, raise.
    destruct (opt_project_name options) as [n|]; [destruct (String.eqb n "")|];
      destruct (pd_name project_data); eexists; (split; [reflexivity | by intros ? [= <-]]). }
  unfold bind at 1. rewrite E. destruct r as [name|e]; [|cbn; intros [= ->]; by eapply Hr].
  unfold bind at 1. rewrite objects_exists_name.
  assert (∀ name' s', (bind (objects_create Project [("name", VStr name'); ("owner", VInt (pk user))])
            (λ project, m2m_add Project_members (pk project) (pk user) ;;
                        old <- subscript "id" (pd_id project_data) ;;
                        id_map_set Project old (pk project) ;; ret project) s').1
          ≠ Raise OutOfFuel) as Hrest.
  { intros name' s'. unfold bind, objects_create, m2m_add, subscript.
    by destruct (pd_id project_data). }
  destruct (name_taken_dec s name) as [Htaken|Hfree].
  - unfold bind at 1. unfold bind at 1. unfold objects_filter. rewrite filter_all_rows.
    destruct (project_name_disambiguation_aux s name Htaken) as (d & _ & _ & _ & Hrun).
    rewrite Hrun by done. apply Hrest.
  - unfold bind at 1. cbn [ret]. apply Hrest.
Qed.

(* ===================================================================== *)
(** ** The writes of an import *)
(* ===================================================================== *)

Lemma seq_perform w s k : seq s k ≤ seq (perform w s) k.
Proof.
  destruct w as [k' ?| | | |]; cbn; try lia.
  destruct (decide (k' = k)) as [->|];
    [rewrite fn_lookup_insert | rewrite fn_lookup_insert_ne by done]; lia.
Qed.

Lemma reach_seq_mono W s0 s k : reach W s0 s → seq s0 k ≤ seq s k.
Proof.
  intros H. apply (reach_invariant W (λ s, seq s0 k ≤ seq s k) s0 s); [|done|lia].
  intros s1 w _ Hle. pose proof (seq_perform w s1 k). lia.
Qed.

(** Peel the writes of a state off, down to the state of the invariant. *)
Ltac reach_tac :=
  lazymatch goal with
  | |- reach _ _ (perform _ _) => apply reach_step; [reach_tac |]
  | |- import_inv _ _ _ _ _ (perform _ _) => unfold import_inv; reach_tac
  | |- _ => idtac
  end.

Ltac write_tac :=
  lazymatch goal with
  | H : import_inv _ _ _ _ ?s0 ?s |- import_inv _ _ _ _ ?s0 ?s => exact H
  | H : import_inv _ _ _ _ ?s0 ?s |- reach _ ?s0 ?s => exact H
  | H : import_inv _ _ _ _ ?s0 ?s |- import_writes _ _ _ _ _ _ (Register ?k _ _) =>
      pose proof (reach_seq_mono _ _ _ k H);
      cbn [import_writes imported always_create]; simpl_state;
      repeat split; try done; try lia
  | |- import_writes _ _ _ _ _ _ _ =>
      cbn [import_writes imported always_create owner_column natural_key];
      repeat split; try done
  end.

Lemma head_filter_Some (p : row → bool) l r :
  head (filter (λ r, p r = true) l) = Some r → r ∈ l ∧ p r = true.
Proof.
  intros H. assert (r ∈ filter (λ r, p r = true) l) as Hin.
  { destruct (filter _ l); [done|]. injection H as ->. left. }
  by apply list_elem_of_filter in Hin as [? ?].
Qed.

Lemma head_filter_None (p : row → bool) l r :
  head (filter (λ r, p r = true) l) = None → r ∈ l → p r = false.
Proof.
  intros H Hin. destruct (p r) eqn:E; [|done].
  assert (r ∈ filter (λ r, p r = true) l) as Hf by by apply list_elem_of_filter.
  destruct (filter _ l); [by apply elem_of_nil in Hf | done].
Qed.

Lemma col_is_true c v r : col_is c v r = true ↔ col r c = v.
Proof. unfold col_is. apply bool_decide_eq_true. Qed.

Lemma resolve_Some m old new : resolve m old = Some new → m !! old = Some new ∧ new ≠ 0.
Proof.
  unfold resolve. destruct (m !! old) as [i|]; [|done]. cbn.
  destruct (Z.eqb_spec i 0); cbn; [done|]. by intros [= <-].
Qed.

Lemma resolved_registered (m : gmap Z Z) (ids : list Z) i :
  i ∈ omap (resolve m) ids → ∃ old, m !! old = Some i.
Proof.
  intros H. apply list_elem_of_omap in H as (old & _ & H).
  apply resolve_Some in H as [? _]. eauto.
Qed.

(** *** Saving over a row *)

Lemma existsb_has_pk i (l : list row) :
  existsb (has_pk i) l = true ↔ ∃ r, r ∈ l ∧ pk r = i.
Proof.
  rewrite existsb_exists. unfold has_pk. split.
  - intros (r & Hr & E). exists r. split; [by apply list_elem_of_In | lia].
  - intros (r & Hr & E). exists r. split; [by apply list_elem_of_In | lia].
Qed.

Lemma update_or_insert_update o l :
  (∃ r, r ∈ l ∧ pk r = pk o) →
  update_or_insert o l = (λ r, if has_pk (pk o) r then o else r) <$> l.
Proof.
  intros H. apply existsb_has_pk in H. unfold update_or_insert. by rewrite H.
Qed.

Lemma update_or_insert_pks o l :
  (∃ r, r ∈ l ∧ pk r = pk o) → pk <$> update_or_insert o l = pk <$> l.
Proof.
  intros H. rewrite update_or_insert_update by done.
  rewrite <- list_fmap_compose. apply list_fmap_ext. intros _ r _. cbn.
  unfold has_pk. destruct (Z.eqb_spec (pk r) (pk o)); congruence.
Qed.

Lemma NoDup_pk_eq (l : list row) r1 r2 :
  NoDup (pk <$> l) → r1 ∈ l → r2 ∈ l → pk r1 = pk r2 → r1 = r2.
Proof.
  induction l as [|r l IH]; cbn; intros Hnd H1 H2 E; [by apply elem_of_nil in H1|].
  apply NoDup_cons in Hnd as [Hnotin Hnd].
  apply elem_of_cons in H1 as [->|H1]; apply elem_of_cons in H2 as [->|H2]; [done | | | by apply IH].
  - exfalso. apply Hnotin. rewrite E. apply list_elem_of_fmap. eauto.
  - exfalso. apply Hnotin. rewrite <- E. apply list_elem_of_fmap. eauto.
Qed.

(** Saving an object over the row with its primary key and natural key
    keeps the pairs of primary and natural key of the table. *)
Lemma keyed_save s k o i key :
  NoDup (pk <$> tables s k) →
  keyed s k (pk o) (natural_key k o) →
  keyed s k i key → keyed (perform (Save k o) s) k i key.
Proof.
  intros Hnd (ro & Hro & Hpk & Hkey) (r & Hr & <- & <-).
  unfold keyed. cbn. rewrite fn_lookup_insert.
  rewrite update_or_insert_update by eauto.
  destruct (decide (pk r = pk o)) as [E|E].
  - assert (r = ro) as -> by (eapply NoDup_pk_eq; [done.. | congruence]).
    exists o. split; [|by rewrite Hkey].
    apply list_elem_of_fmap. exists ro. split; [|done].
    unfold has_pk. by rewrite Hpk, Z.eqb_refl.
  - exists r. split; [|done]. apply list_elem_of_fmap. exists r. split; [|done].
    unfold has_pk. by destruct (Z.eqb_spec (pk r) (pk o)).
Qed.

(** *** Well-formed tables *)

Lemma wf_create s k kwargs : wf s → wf (perform (Create k kwargs) s).
Proof.
  intros Hwf k'. destruct (Hwf k') as (Hnd & Hpos & Hbound).
  unfold wf_table. cbn. destruct (decide (k = k')) as [->|Hne].
  - rewrite !fn_lookup_insert. rewrite fmap_app. cbn. split; [|split; [lia|]].
    + apply NoDup_app. split; [done|]. split; [|apply NoDup_singleton].
      intros i Hi Hi'. apply list_elem_of_singleton in Hi' as ->.
      apply list_elem_of_fmap in Hi as (r & E & Hr). apply Hbound in Hr. lia.
    + intros r Hr. apply elem_of_app in Hr as [Hr|Hr].
      * apply Hbound in Hr. lia.
      * apply list_elem_of_singleton in Hr as ->. cbn. lia.
  - by rewrite !fn_lookup_insert_ne by done.
Qed.

Lemma wf_save s k o :
  (∃ r, r ∈ tables s k ∧ pk r = pk o) → wf s → wf (perform (Save k o) s).
Proof.
  intros Hrow Hwf k'. destruct (Hwf k') as (Hnd & Hpos & Hbound).
  unfold wf_table. cbn. destruct (decide (k = k')) as [->|Hne].
  - rewrite !fn_lookup_insert. rewrite update_or_insert_pks by done.
    split; [done|]. split; [done|]. intros r Hr.
    rewrite update_or_insert_update in Hr by done.
    apply list_elem_of_fmap in Hr as (r' & -> & Hr').
    destruct (has_pk (pk o) r') eqn:E; [|by apply Hbound].
    unfold has_pk in E. apply Z.eqb_eq in E. rewrite <- E. by apply Hbound.
  - by rewrite !fn_lookup_insert_ne by done.
Qed.

Lemma wf_import_write u p options keys seq0 s w :
  import_writes u p options keys seq0 s w → wf s → wf (perform w s).
Proof.
  destruct w as [k kw|k o| | |]; cbn [import_writes]; intros HW Hwf.
  - by apply wf_create.
  - destruct HW as (_ & _ & r & Hr & Hpk & _). apply wf_save; eauto.
  - done.
  - done.
  - done.
Qed.

Lemma wf_reach u p options keys seq0 s0 s :
  reach (import_writes u p options keys seq0) s0 s → wf s0 → wf s.
Proof. apply reach_invariant. intros. by eapply wf_import_write. Qed.

Lemma wf_empty_db : wf empty_db.
Proof.
  intros k. split; [apply NoDup_nil_2|]. split; [done|]. intros r Hr. by apply elem_of_nil in Hr.
Qed.

Lemma wf_db_with_user : wf db_with_user.
Proof.
  intros k. destruct (decide (k = User)) as [->|Hk].
  - split; [|split; [done|]].
    + cbn. rewrite fn_lookup_insert. apply NoDup_singleton.
    + cbn. rewrite fn_lookup_insert. intros r Hr.
      apply list_elem_of_singleton in Hr as ->. by vm_compute.
  - unfold wf_table. cbn. rewrite !fn_lookup_insert_ne by done. apply (wf_empty_db k).
Qed.

Section Writes.

Context (user project : row) (options : options).
Context (keys : model → list (list val)) (s0 : state).

Local Abbreviation Inv := (import_inv (pk user) (pk project) options keys s0).

Lemma import_sites_writes sites_data :
  preserves Inv (import_sites sites_data project).
Proof.
  intros s HI. unfold import_sites. apply wp_for_each with (I := Inv); [done | | done].
  clear s HI. intros x s _ HI. wp_steps. reach_tac; write_tac.
Qed.

Lemma import_devices_writes devices_data :
  preserves Inv (import_devices devices_data project).
Proof.
  intros s HI. unfold import_devices. apply wp_for_each with (I := Inv); [done | | done].
  clear s HI. intros x s _ HI. wp_steps. reach_tac; write_tac.
Qed.

Lemma import_storage_sources_writes sources_data :
  preserves Inv (import_storage_sources sources_data project).
Proof.
  intros s HI. unfold import_storage_sources.
  apply wp_for_each with (I := Inv); [done | | done].
  clear s HI. intros x s _ HI. wp_steps. reach_tac; write_tac.
Qed.

Lemma import_deployments_writes deployments_data :
  preserves Inv (import_deployments deployments_data project).
Proof.
  intros s HI. unfold import_deployments.
  apply wp_for_each with (I := Inv); [done | | done].
  clear s HI. intros x s _ HI. wp_steps. reach_tac; write_tac.
Qed.

Lemma import_events_writes events_data :
  preserves Inv (import_events events_data project).
Proof.
  intros s HI. unfold import_events.
  apply wp_for_each with (I := Inv); [done | | done].
  clear s HI. intros x s _ HI. wp_steps; [done|]. reach_tac; write_tac.
Qed.


Lemma import_taxa_lists_writes taxa_lists_data :
  preserves Inv (import_taxa_lists taxa_lists_data project).
Proof.
  intros s HI. unfold import_taxa_lists.
  apply wp_for_each with (I := Inv); [done | | done].
  clear s HI. intros x s _ HI. wp_steps; reach_tac; write_tac; auto.
Qed.

Lemma import_tags_writes tags_data :
  preserves Inv (import_tags tags_data project).
Proof.
  intros s HI. unfold import_tags.
  apply wp_for_each with (I := Inv); [done | | done].
  clear s HI. intros x s _ HI. wp_steps; reach_tac; write_tac; auto.
Qed.

Lemma import_source_images_writes images_data :
  images_imported options →
  preserves Inv (import_source_images images_data project).
Proof.
  intros Hopt s HI. unfold import_source_images.
  apply wp_for_each with (I := Inv); [done | | done].
  clear s HI. intros x s _ HI. wp_steps; [done|]. reach_tac; write_tac.
Qed.

Lemma import_collections_writes collections_data :
  images_imported options →
  preserves Inv (import_collections collections_data project).
Proof.
  intros Hopt s HI. unfold import_collections.
  apply wp_for_each with (I := Inv); [done | | done].
  clear s HI. intros x s _ HI. wp_steps; reach_tac; write_tac; auto.
Qed.

Lemma import_occurrences_writes occurrences_data :
  ml_imported options →
  preserves Inv (import_occurrences occurrences_data project).
Proof.
  intros Hopt s HI. pose proof Hopt as [? ?]. unfold import_occurrences.
  apply wp_for_each with (I := Inv); [done | | done].
  clear s HI. intros x s _ HI. wp_steps; [done|]. reach_tac; write_tac.
Qed.

Lemma import_detections_writes detections_data :
  ml_imported options →
  preserves Inv (import_detections detections_data project).
Proof.
  intros Hopt s HI. pose proof Hopt as [? ?]. unfold import_detections.
  apply wp_for_each with (I := Inv); [done | | done].
  clear s HI. intros x s _ HI. wp_steps; [done|]. reach_tac; write_tac.
Qed.

Lemma import_classifications_writes classifications_data :
  ml_imported options →
  preserves Inv (import_classifications classifications_data project).
Proof.
  intros Hopt s HI. pose proof Hopt as [? ?]. unfold import_classifications.
  apply wp_for_each with (I := Inv); [done | | done].
  clear s HI. intros x s _ HI. wp_steps; [done|]. reach_tac; write_tac.
Qed.


Lemma import_identifications_writes identifications_data :
  ml_imported options →
  preserves Inv (import_identifications identifications_data project user).
Proof.
  intros Hopt s HI. pose proof Hopt as [? ?]. unfold import_identifications.
  apply wp_for_each with (I := Inv); [done | | done].
  clear s HI. intros x s _ HI. wp_steps; [done|]. reach_tac; write_tac.
Qed.

(** The row found by [first()] is in the table. *)
Ltac found_row :=
  match goal with
  | H : head (filter _ _) = Some ?r |- _ =>
      let Hin := fresh "Hin" in let Hp := fresh "Hp" in
      apply head_filter_Some in H as [Hin Hp];
      eexists; split; [exact Hin | try done]
  end.

(** The row just created is in the table. *)
Ltac created_row :=
  eexists; split; [apply elem_of_app; right; left | done].

(** No row has the key for which [first()] found nothing. *)
Ltac no_row_has_key :=
  match goal with
  | H : head (filter _ _) = None |- ¬ _ =>
      let r := fresh "r" in let Hr := fresh "Hr" in let Hk := fresh "Hk" in
      intros (r & Hr & Hk); apply (head_filter_None _ _ r) in H; [|exact Hr];
      cbn in Hk; inversion Hk; unfold col_is in H;
      repeat match goal with E : col r _ = _ |- _ => rewrite E in H; clear E end;
      rewrite !bool_decide_eq_true_2 in H by done; done
  end.

Lemma import_processing_services_writes services_data :
  (∀ x key, x ∈ services_data → service_key x = Some key → key ∈ keys ProcessingService) →
  preserves Inv (import_processing_services services_data project).
Proof.
  intros Hkeys s HI. unfold import_processing_services.
  apply wp_for_each with (I := Inv); [done | | done].
  clear s HI. intros x s Hx HI. wp_steps; reach_tac; write_tac; auto.
  all: unfold has_row, has_key; simpl_state.
  - found_row.
  - apply (Hkeys x); [done|]. unfold service_key. by rewrite H.
  - no_row_has_key.
  - created_row.
Qed.

Lemma import_algorithms_writes algorithms_data :
  ml_imported options →
  (∀ x key, x ∈ algorithms_data → algo_key x = Some key → key ∈ keys Algorithm) →
  preserves Inv (import_algorithms algorithms_data project).
Proof.
  intros Hopt Hkeys s HI. pose proof Hopt as [? ?]. unfold import_algorithms.
  apply wp_for_each with (I := Inv); [done | | done].
  clear s HI. intros x s Hx HI. wp_steps; reach_tac; write_tac; auto.
  all: unfold has_row, has_key; simpl_state.
  all: try found_row; try created_row; try no_row_has_key.
  all: apply (Hkeys x); [done|]; unfold algo_key;
    repeat match goal with E : _ = Some _ |- _ => rewrite E end; done.
Qed.

Lemma import_pipelines_writes pipelines_data :
  (∀ x key, x ∈ pipelines_data → pipeline_key x = Some key → key ∈ keys Pipeline) →
  preserves Inv (import_pipelines pipelines_data project).
Proof.
  intros Hkeys s HI. unfold import_pipelines.
  apply wp_for_each with (I := Inv); [done | | done].
  clear s HI. intros x s Hx HI. wp_steps; reach_tac; write_tac; auto.
  all: unfold has_row, has_key; simpl_state.
  all: try found_row; try created_row; try no_row_has_key.
  1, 2: apply (Hkeys x); [done|]; unfold pipeline_key;
    repeat match goal with E : _ = Some _ |- _ => rewrite E end; done.
  do 3 right. split; [done|].
  match goal with E : omap _ _ = ?z :: _ |- _ =>
    destruct (resolved_registered (id_maps s Algorithm) (default [] (pl_algorithm_ids x)) z)
      as [old Hold]; [rewrite E; left | exists z, old; split; [left | done]]
  end.
Qed.

Lemma import_pipeline_configs_writes configs_data :
  preserves Inv (import_pipeline_configs configs_data project).
Proof.
  intros s HI. unfold import_pipeline_configs.
  apply wp_for_each with (I := Inv); [done | | done].
  clear s HI. intros x s Hx HI. wp_steps; [done | |]; reach_tac; write_tac; auto.
  all: unfold has_row, has_key; simpl_state.
  - apply head_filter_Some in Heqo as [Hin Hp]. apply andb_prop in Hp as [Hp _].
    apply col_is_true in Hp. eauto.
  - eexists. split; [apply elem_of_app; right; left | done].
Qed.


(** A save of a Taxon object over its own row: an allowed write that
    keeps the rows' primary and natural keys. *)
Lemma save_taxon_step s o :
  wf s0 → Inv s → keyed s Taxon (pk o) (natural_key Taxon o) →
  Inv (perform (Save Taxon o) s)
  ∧ ∀ i key, keyed s Taxon i key → keyed (perform (Save Taxon o) s) Taxon i key.
Proof.
  intros Hwf HI Ho. split.
  - apply reach_step; [done|]. cbn [import_writes imported].
    destruct Ho as (r & Hr & Hpk & Hkey). split; [by left|]. split; [done|]. eauto.
  - intros i key. apply keyed_save; [|done]. by destruct (wf_reach _ _ _ _ _ _ _ HI Hwf Taxon).
Qed.

Lemma keyed_set_col s c v o :
  c ≠ "name" → keyed s Taxon (pk o) (natural_key Taxon o) →
  keyed s Taxon (pk (set_col c v o)) (natural_key Taxon (set_col c v o)).
Proof.
  intros Hc. unfold keyed, natural_key, set_col, col. cbn [pk cols assoc].
  by destruct (String.eqb_spec "name" c).
Qed.

Local Abbreviation TaxaInv := (taxa_inv (pk user) (pk project) options keys s0).

Lemma taxa_inv_insert s o by_old old :
  TaxaInv by_old s → keyed s Taxon (pk o) (natural_key Taxon o) →
  TaxaInv (<[old := o]> by_old) s.
Proof.
  intros [HI Hby] Ho. split; [done|].
  intros old2 o2 Ho2. apply lookup_insert_Some in Ho2 as [[<- <-]|[_ Ho2]]; eauto.
Qed.

Lemma taxa_inv_save s o by_old :
  wf s0 → TaxaInv by_old s → keyed s Taxon (pk o) (natural_key Taxon o) →
  TaxaInv by_old (perform (Save Taxon o) s)
  ∧ keyed (perform (Save Taxon o) s) Taxon (pk o) (natural_key Taxon o).
Proof.
  intros Hwf [HI Hby] Ho.
  destruct (save_taxon_step s o Hwf HI Ho) as [HI2 Hkeep].
  split; [split; [done|] | by apply Hkeep]. intros old2 o2 Ho2. apply Hkeep. eauto.
Qed.

Lemma taxa_inv_keep s o by_old i key :
  wf s0 → TaxaInv by_old s → keyed s Taxon (pk o) (natural_key Taxon o) →
  keyed s Taxon i key → keyed (perform (Save Taxon o) s) Taxon i key.
Proof.
  intros Hwf [HI Hby] Ho. by apply (save_taxon_step s o Hwf HI Ho).
Qed.

Lemma import_taxa_first_writes x by_old s :
  (∀ key, taxon_key x = Some key → key ∈ keys Taxon) →
  TaxaInv by_old s → wp (import_taxa_first project by_old x) TaxaInv s.
Proof.
  intros Hkeys [HI Hby]. unfold import_taxa_first. wp_steps.
  - split.
    + reach_tac; write_tac; auto. unfold has_row. simpl_state. found_row.
    + unfold keyed in *. simpl_state. intros i o Ho.
      apply lookup_insert_Some in Ho as [[<- <-]|[_ Ho]]; [|by eapply Hby].
      apply head_filter_Some in Heqo as [Hin _]. eauto.
  - split.
    + reach_tac; write_tac; auto; unfold has_row, has_key; simpl_state.
      * apply Hkeys. unfold taxon_key. by rewrite H.
      * no_row_has_key.
      * created_row.
    + unfold keyed in *. simpl_state. intros i o Ho.
      apply lookup_insert_Some in Ho as [[<- <-]|[_ Ho]].
      * eexists. split; [apply elem_of_app; right; left | done].
      * destruct (Hby i o Ho) as (r & Hr & ?). exists r. split; [|done].
        apply elem_of_app. by left.
Qed.

Lemma import_taxa_second_writes x by_old s :
  wf s0 → TaxaInv by_old s → wp (import_taxa_second by_old x) TaxaInv s.
Proof.
  intros Hwf HJ. unfold import_taxa_second. wp_steps.
  all: match goal with H : _ !! _ = Some ?o |- _ => pose proof (proj2 HJ _ _ H) as Ho end.
  all: repeat match goal with
       | |- TaxaInv (<[_ := _]> _) _ => apply taxa_inv_insert
       | |- TaxaInv _ (perform (Save Taxon _) _) => apply taxa_inv_save; [done | |]
       | |- keyed _ Taxon (pk (set_col _ _ _)) _ => apply keyed_set_col; [done|]
       | |- keyed (perform (Save Taxon _) _) Taxon _ _ =>
           eapply taxa_inv_keep; [done | | |]
       | |- _ => eassumption
       end.
Qed.

Lemma import_taxa_writes taxa_data :
  wf s0 →
  (∀ x key, x ∈ taxa_data → taxon_key x = Some key → key ∈ keys Taxon) →
  preserves Inv (import_taxa taxa_data project).
Proof.
  intros Hwf Hkeys s HI. unfold import_taxa.
  apply wp_bind. apply wp_for_each_with with (I := TaxaInv).
  - split; [done|]. intros old o Ho. by rewrite lookup_empty in Ho.
  - intros x by_old s1 Hx HJ. apply import_taxa_first_writes; [|done]. eauto.
  - intros by_old s1 HJ. apply wp_bind. apply wp_for_each_with with (I := TaxaInv).
    + done.
    + intros x by2 s2 Hx HJ2. by apply import_taxa_second_writes.
    + intros by2 s2 [HI2 _]. by apply wp_ret.
Qed.

Lemma wp_Occurrence_save rule o Q s :
  (∀ d, Q tt (perform (Save Occurrence (set_col "determination_id" d o)) s)) →
  wp (Occurrence_save rule o) Q s.
Proof.
  intros H. unfold wp, Occurrence_save. destruct (rule (tables s) o); [apply H | done].
Qed.

Lemma update_occurrences_writes rule :
  ml_imported options →
  preserves Inv (update_occurrences rule project).
Proof.
  intros Hopt s HI. unfold update_occurrences. wp_steps.
  set (occurrences := filter _ _).
  apply wp_for_each with
    (I := λ s', Inv s' ∧ pk <$> tables s' Occurrence = pk <$> tables s Occurrence);
    [done | | by intros ? [? _]].
  intros o s1 Ho [HI1 Hpks]. apply wp_Occurrence_save. intros d.
  assert (∃ r, r ∈ tables s1 Occurrence ∧ pk r = pk o) as (r & Hr & Hpk).
  { apply list_elem_of_filter in Ho as [_ Ho].
    assert (pk o ∈ pk <$> tables s1 Occurrence) as Hin
      by (rewrite Hpks; apply list_elem_of_fmap; eauto).
    apply list_elem_of_fmap in Hin as (r & ? & ?). eauto. }
  split.
  - apply reach_step; [done|]. cbn [import_writes imported natural_key].
    split; [by right|]. split; [done|]. eauto.
  - cbn. rewrite fn_lookup_insert. rewrite update_or_insert_pks; [done|]. eauto.
Qed.

End Writes.

(* ===================================================================== *)
(** ** The whole import *)
(* ===================================================================== *)

Lemma wp_while_name_exists fuel base name counter s :
  wp (while_name_exists fuel base name counter)
     (λ n s', s' = s ∧ ¬ name_taken s n) s.
Proof.
  revert name counter. induction fuel as [|fuel IH]; intros name counter.
  - unfold wp. rewrite while_name_exists_eq. by destruct (name_taken_dec s name).
  - unfold wp. rewrite while_name_exists_eq. destruct (name_taken_dec s name); [|done].
    apply IH.
Qed.

Lemma import_project_wp project_data user options s :
  wp (import_project project_data user options)
     (λ project s', ∃ name old,
        ¬ name_taken s name
        ∧ project = project_row name user s
        ∧ s' = project_created name old user s) s.
Proof.
  unfold import_project. apply wp_bind.
  apply wp_mono with (Q := λ _ s', s' = s).
  { destruct (opt_project_name options) as [n|]; [destruct (String.eqb n "")|];
      wp_steps; done. }
  intros name ? ->. apply wp_bind. unfold wp at 1. rewrite objects_exists_name.
  apply wp_bind.
  apply wp_mono with (Q := λ n s', s' = s ∧ ¬ name_taken s n).
  { destruct (name_taken_dec s name); wp_steps; [|done].
    apply wp_while_name_exists. }
  intros name' ? [-> Hfree]. wp_steps. by exists name', a.
Qed.

Lemma doc_keys_taxa doc taxa x key :
  doc_taxa doc = Some taxa → x ∈ taxa → taxon_key x = Some key →
  key ∈ doc_keys doc Taxon.
Proof. intros E ? ?. cbn. rewrite E. apply list_elem_of_omap. eauto. Qed.

Lemma doc_keys_algorithms doc l x key :
  doc_algorithms doc = Some l → x ∈ l → algo_key x = Some key →
  key ∈ doc_keys doc Algorithm.
Proof. intros E ? ?. cbn. rewrite E. apply list_elem_of_omap. eauto. Qed.

Lemma doc_keys_services doc l x key :
  doc_processing_services doc = Some l → x ∈ l → service_key x = Some key →
  key ∈ doc_keys doc ProcessingService.
Proof. intros E ? ?. cbn. rewrite E. apply list_elem_of_omap. eauto. Qed.

Lemma doc_keys_pipelines doc l x key :
  doc_pipelines doc = Some l → x ∈ l → pipeline_key x = Some key →
  key ∈ doc_keys doc Pipeline.
Proof. intros E ? ?. cbn. rewrite E. apply list_elem_of_omap. eauto. Qed.

Lemma wf_project_created name old user s : wf s → wf (project_created name old user s).
Proof. intros Hwf. unfold project_created. by apply wf_create. Qed.

(** Run one [import_*] method whose writes are known. *)
Ltac import_step lem :=
  apply wp_bind; eapply wp_mono;
  [ apply lem; try done | cbv beta; intros _ ? ? ].

(** Every run of [import_data] that returns is an import in the sense of
    [imported_from]. *)
Lemma import_data_wp rule doc user options s0 :
  wf s0 →
  wp (import_data rule doc user options) (λ _ s', imported_from doc user options s0 s') s0.
Proof.
  intros Hwf. unfold import_data. wp_step. wp_step.
  apply wp_bind. eapply wp_mono; [apply import_project_wp|]. cbv beta.
  intros project s1 (name & old & Hfree & -> & ->).
  apply wp_mono with
    (Q := λ _ s', import_inv (pk user) (seq s0 Project) options (doc_keys doc)
                    (project_created name old user s0) s').
  2: { intros _ s' HI. by exists name, old. }
  assert (wf (project_created name old user s0)) as Hwf1 by by apply wf_project_created.
  set (sp := project_created name old user s0) in *.
  assert (import_inv (pk user) (seq s0 Project) options (doc_keys doc) sp sp) as HI
    by apply reach_refl.
  revert HI. generalize sp at 2 4 as s. intros s HI.
  change (seq s0 Project) with (pk (project_row name user s0)) in *.
  wp_step. wp_step. import_step import_sites_writes.
  wp_step. wp_step. import_step import_devices_writes.
  wp_step. wp_step. import_step import_storage_sources_writes.
  wp_step. wp_step. import_step import_deployments_writes.
  wp_step. wp_step. import_step import_events_writes.
  wp_step. wp_step. import_step import_taxa_writes.
  { intros. by eapply doc_keys_taxa. }
  wp_step. wp_step. import_step import_taxa_lists_writes.
  wp_step. wp_step. import_step import_tags_writes.
  apply wp_bind.
  apply wp_mono with
    (Q := λ _ s', import_inv (pk user) (pk (project_row name user s0)) options
                    (doc_keys doc) sp s').
  { destruct (opt_skip_images options) eqn:Himg; cbn [negb]; [by wp_steps|].
    wp_step. wp_step. import_step import_source_images_writes.
    wp_step. wp_step. by apply import_collections_writes. }
  cbv beta. intros _ ? ?. apply wp_bind.
  apply wp_mono with
    (Q := λ _ s', import_inv (pk user) (pk (project_row name user s0)) options
                    (doc_keys doc) sp s').
  { destruct (opt_skip_ml_data options) eqn:Hml, (opt_skip_images options) eqn:Himg;
      cbn [negb andb]; try by wp_steps.
    assert (ml_imported options) by done.
    wp_step. wp_step. import_step import_algorithms_writes.
    { intros. by eapply doc_keys_algorithms. }
    wp_step. wp_step. import_step import_occurrences_writes.
    wp_step. wp_step. import_step import_detections_writes.
    wp_step. wp_step. import_step import_classifications_writes.
    wp_step. wp_step. import_step import_identifications_writes.
    by apply update_occurrences_writes. }
  cbv beta. intros _ ? ?.
  wp_step. wp_step. import_step import_processing_services_writes.
  { intros. by eapply doc_keys_services. }
  wp_step. wp_step. import_step import_pipelines_writes.
  { intros. by eapply doc_keys_pipelines. }
  wp_step. wp_step. by apply import_pipeline_configs_writes.
Qed.

Lemma reach_stable W P s s' : stable W P → reach W s s' → P s → P s'.
Proof. intros HP. by apply reach_invariant. Qed.

Lemma print_summary_state export_data s lines s' :
  print_summary export_data s = (Ok lines, s') → s' = s.
Proof.
  unfold print_summary, bind, subscript.
  destruct (doc_project export_data) as [pd|]; cbn; [|done].
  destruct (pd_name pd); cbn; [|done]. by intros [= _ ->].
Qed.

(** A command that returns ran [import_data] to the end, for the one
    user with the given email, and its final state is the state
    [import_data] left. *)
Lemma call_command_ok rule input options s lines s' :
  call_command rule input options s = (Ok lines, s') →
  ∃ doc user,
    input = Some doc
    ∧ get_user options (Command_init s) = (Ok user, Command_init s)
    ∧ import_data rule doc user options (Command_init s) = (Ok tt, s').
Proof.
  unfold call_command, handle. intros H.
  destruct input as [doc|]; [|done]. exists doc.
  unfold bind at 1 in H. cbn [ret] in H. unfold bind at 1 in H.
  destruct (get_user options (Command_init s)) as [[user|e] s1] eqn:Huser; [|done].
  pose proof (get_user_state _ _ _ _ Huser) as ->.
  exists user. split; [done|]. split; [done|].
  unfold bind at 1 in H. unfold atomic in H.
  destruct (import_data rule doc user options (Command_init s)) as [[[]|e] s2]; [|done].
  apply print_summary_state in H as ->. done.
Qed.

Lemma wf_Command_init s : wf s → wf (Command_init s).
Proof. done. Qed.

Lemma call_command_imported rule input options s lines s' :
  wf s →
  call_command rule input options s = (Ok lines, s') →
  ∃ doc user,
    input = Some doc
    ∧ get_user options (Command_init s) = (Ok user, Command_init s)
    ∧ imported_from doc user options (Command_init s) s'.
Proof.
  intros Hwf H. apply call_command_ok in H as (doc & user & -> & Huser & H).
  exists doc, user. split; [done|]. split; [done|].
  by apply (wp_run _ _ _ _ _ (import_data_wp rule doc user options _ (wf_Command_init _ Hwf)) H).
Qed.

(* ===================================================================== *)
(** ** The project and its owner *)
(* ===================================================================== *)

(** The writes after [import_project] leave a table alone whose kind is
    not imported. *)
Lemma table_not_imported u p options keys seq0 k :
  ¬ imported options k →
  ∀ T, stable (import_writes u p options keys seq0) (λ s, tables s k = T).
Proof.
  intros Hk T s w HW <-. destruct w as [k' kw|k' o| | |]; cbn; try done.
  - destruct (decide (k' = k)) as [->|]; [|by rewrite fn_lookup_insert_ne].
    by destruct HW as [? _].
  - destruct (decide (k' = k)) as [->|]; [|by rewrite fn_lookup_insert_ne].
    by destruct HW as (_ & ? & _).
Qed.

Lemma members_stable u p options keys seq0 L :
  stable (import_writes u p options keys seq0) (λ s, links s Project_members = L).
Proof.
  intros s w HW <-. destruct w as [| |rel a b|rel a ids|]; cbn; try done.
  - destruct HW as [[->| [->| ->]] _]; by rewrite fn_lookup_insert_ne.
  - destruct HW as [->|[->|[[-> _]|[-> _]]]]; by rewrite fn_lookup_insert_ne.
Qed.

(** C10. After every import that returns, the Project table has one more
    row, the new project; its owner is the importing user, and the
    project and the user are linked in [Project.members]. *)
Theorem project_owner_is_member rule input options s lines s' :
  wf s →
  call_command rule input options s = (Ok lines, s') →
  ∃ user project,
    get_user options (Command_init s) = (Ok user, Command_init s)
    ∧ tables s' Project = tables s Project ++ [project]
    ∧ pk project = seq s Project
    ∧ col project "owner" = VInt (pk user)
    ∧ (pk project, pk user) ∈ links s' Project_members.
Proof.
  intros Hwf H.
  apply call_command_imported in H as (doc & user & -> & Huser & name & old & _ & HI); [|done].
  exists user, (project_row name user s). split; [done|].
  assert (tables s' Project = tables (project_created name old user (Command_init s)) Project)
    as ->.
  { eapply (reach_stable _ (λ s', tables s' Project = _)); [|exact HI|done].
    apply table_not_imported. cbn. tauto. }
  assert (links s' Project_members
          = links (project_created name old user (Command_init s)) Project_members) as ->.
  { eapply (reach_stable _ (λ s', links s' Project_members = _)); [|exact HI|done].
    apply members_stable. }
  cbn. rewrite !fn_lookup_insert. repeat split. set_solver.
Qed.

Lemma project_owner_is_member_witness :
  ∃ user project,
    get_user default_options (Command_init db_with_user) = (Ok user, Command_init db_with_user)
    ∧ tables (call_command keep_determination (Some empty_document) default_options
                db_with_user).2 Project
      = tables db_with_user Project ++ [project]
    ∧ pk project = seq db_with_user Project
    ∧ col project "owner" = VInt (pk user)
    ∧ (pk project, pk user)
      ∈ links (call_command keep_determination (Some empty_document) default_options
                 db_with_user).2 Project_members.
Proof.
  eapply (project_owner_is_member keep_determination (Some empty_document) default_options
            db_with_user); [|vm_compute; reflexivity].
  apply wf_db_with_user.
Defined.

(* ===================================================================== *)
(** ** The author of identifications *)
(* ===================================================================== *)

Lemma identifications_stable u p options keys seq0 (T : list row) :
  stable (import_writes u p options keys seq0)
    (λ s, ∀ r, r ∈ tables s Identification → r ∈ T ∨ col r "user" = VInt u).
Proof.
  intros s w HW HI. destruct w as [k kw|k o| | |]; cbn; try done.
  - destruct (decide (k = Identification)) as [->|]; [|by rewrite fn_lookup_insert_ne].
    rewrite fn_lookup_insert. intros r Hr. apply elem_of_app in Hr as [Hr|Hr]; [by apply HI|].
    apply list_elem_of_singleton in Hr as ->. right. by destruct HW as (_ & ? & _).
  - destruct HW as ([->| ->] & _); by rewrite fn_lookup_insert_ne.
Qed.

(** C6. After every import that returns, every Identification row that
    was not in the table before has the importing user as its user. *)
Theorem identification_author_is_importer rule input options s lines s' :
  wf s →
  call_command rule input options s = (Ok lines, s') →
  ∃ user,
    get_user options (Command_init s) = (Ok user, Command_init s)
    ∧ ∀ r, r ∈ tables s' Identification → r ∉ tables s Identification →
           col r "user" = VInt (pk user).
Proof.
  intros Hwf H.
  apply call_command_imported in H as (doc & user & -> & Huser & name & old & _ & HI); [|done].
  exists user. split; [done|]. intros r Hr Hnew.
  pose proof (reach_stable _ _ _ _
    (identifications_stable _ _ _ _ _ (tables s Identification)) HI) as Hall.
  destruct (Hall (λ r Hr, or_introl Hr) r Hr); done.
Qed.

Lemma identification_author_is_importer_witness :
  ∃ user,
    get_user default_options (Command_init db_with_user) = (Ok user, Command_init db_with_user)
    ∧ ∀ r, r ∈ tables (call_command keep_determination (Some identified_document)
                         default_options db_with_user).2 Identification →
           r ∉ tables db_with_user Identification →
           col r "user" = VInt (pk user).
Proof.
  eapply (identification_author_is_importer keep_determination (Some identified_document)
            default_options db_with_user); [|vm_compute; reflexivity].
  apply wf_db_with_user.
Defined.

(* ===================================================================== *)
(** ** Tables and relations under the skip flags *)
(* ===================================================================== *)

(** A table nothing is saved to only grows, by rows with new primary
    keys. *)
Lemma appended_stable u p options keys seq0 k T n :
  k ≠ Taxon → k ≠ Occurrence →
  stable (import_writes u p options keys seq0) (appended k T n).
Proof.
  intros H1 H2 s w HW (Hseq & new & Htab & Hnew). pose proof (seq_perform w s k).
  split; [lia|]. destruct w as [k' kw|k' o| | |]; cbn; eauto.
  - destruct (decide (k' = k)) as [->|]; [|rewrite fn_lookup_insert_ne by done; eauto].
    rewrite fn_lookup_insert. exists (new ++ [Row (seq s k) kw]). rewrite Htab, app_assoc.
    split; [done|]. intros r Hr. apply elem_of_app in Hr as [Hr|Hr]; [by apply Hnew|].
    apply list_elem_of_singleton in Hr as ->. done.
  - destruct HW as ([->| ->] & _); rewrite fn_lookup_insert_ne by done; eauto.
Qed.

Lemma appended_refl k s : appended k (tables s k) (seq s k) s.
Proof.
  split; [done|]. exists []. rewrite app_nil_r. split; [done|].
  intros r Hr. by apply elem_of_nil in Hr.
Qed.

(** Without registered algorithms, no pipeline gets algorithms. *)
Lemma pipeline_algorithms_stable u p options keys seq0 L :
  ¬ ml_imported options →
  stable (import_writes u p options keys seq0)
    (λ s, id_maps s Algorithm = ∅ ∧ links s Pipeline_algorithms = L).
Proof.
  intros Hskip s w HW [Hmap <-]. destruct w as [| |rel a b|rel a ids|k old new]; cbn; try done.
  - destruct HW as [[->| [->| ->]] _]; by rewrite fn_lookup_insert_ne.
  - destruct HW as [->|[->|[[-> _]|[-> (i & old & _ & Hreg)]]]];
      [by rewrite fn_lookup_insert_ne.. |].
    by rewrite Hmap, lookup_empty in Hreg.
  - destruct (decide (k = Algorithm)) as [->|]; [|by rewrite fn_lookup_insert_ne].
    by destruct HW as [? _].
Qed.

(** The state [import_project] leaves differs from the state before in
    the Project table, the members and the identity of the project. *)
Lemma project_created_tables name old user s k :
  k ≠ Project → tables (project_created name old user s) k = tables s k.
Proof. intros. cbn. by rewrite fn_lookup_insert_ne. Qed.

Lemma project_created_seq name old user s k :
  k ≠ Project → seq (project_created name old user s) k = seq s k.
Proof. intros. cbn. by rewrite fn_lookup_insert_ne. Qed.

Lemma project_created_links name old user s rel :
  rel ≠ Project_members → links (project_created name old user s) rel = links s rel.
Proof. intros. cbn. by rewrite fn_lookup_insert_ne. Qed.

Lemma project_created_id_maps name old user s k :
  k ≠ Project → id_maps (project_created name old user s) k = id_maps s k.
Proof. intros. cbn. by rewrite fn_lookup_insert_ne. Qed.

Lemma of_project_nil k p s :
  (∀ r, r ∈ tables s k → col r "project" ≠ VInt p) → of_project k p s = [].
Proof.
  intros H. unfold of_project. induction (tables s k) as [|r l IH]; [done|].
  rewrite filter_cons_False by (apply H; left). apply IH. intros r' Hr'. apply H. by right.
Qed.

Lemma filter_nil_all {A} (P : A → Prop) `{∀ x, Decision (P x)} (l : list A) :
  (∀ x, x ∈ l → ¬ P x) → filter P l = [].
Proof.
  induction l as [|x l IH]; [done|]. intros Hall.
  rewrite filter_cons_False by (apply Hall; left). apply IH. intros y Hy. apply Hall. by right.
Qed.

(** What an import leaves of a kind it does not import: the table as it
    was, hence no row of the new project. *)
Lemma not_imported_table doc user options s s' k :
  k ≠ Project → ¬ imported options k →
  imported_from doc user options s s' → tables s' k = tables s k.
Proof.
  intros Hk Hskip (name & old & _ & HI).
  rewrite <- (project_created_tables name old user s k Hk).
  eapply (reach_stable _ (λ s', tables s' k = _)); [|exact HI|done].
  by apply table_not_imported.
Qed.

Lemma not_imported_of_project doc user options s s' k :
  k ≠ Project → ¬ imported options k → no_dangling s →
  imported_from doc user options s s' → of_project k (seq s Project) s' = [].
Proof.
  intros Hk Hskip (Hdang & _) HI. apply of_project_nil.
  rewrite (not_imported_table _ _ _ _ _ _ Hk Hskip HI).
  intros r Hr E. apply (Hdang k r _ Hr) in E. lia.
Qed.

(* ===================================================================== *)
(** ** What an import that returns has done *)
(* ===================================================================== *)

Lemma registered_insert s k k' old new i :
  (k' = k → new ≠ 0) →
  registered s k i → registered (perform (Register k' old new) s) k i.
Proof.
  intros Hnew (n & Hn & Hn0). unfold registered. cbn.
  destruct (decide (k' = k)) as [->|]; [|rewrite fn_lookup_insert_ne by done; eauto].
  rewrite fn_lookup_insert. destruct (decide (old = i)) as [->|].
  - rewrite lookup_insert_eq. eauto.
  - rewrite lookup_insert_ne by done. eauto.
Qed.

Lemma registered_new s k old new :
  new ≠ 0 → registered (perform (Register k old new) s) k old.
Proof.
  intros Hnew. exists new. cbn. by rewrite fn_lookup_insert, lookup_insert_eq.
Qed.

(** Every deployment of the document is registered. *)
Lemma import_deployments_live deployments_data project s :
  0 < seq s Deployment →
  wp (import_deployments deployments_data project)
     (λ _ s', ∀ d i, d ∈ deployments_data → d_id d = Some i → registered s' Deployment i) s.
Proof.
  intros Hpos. unfold import_deployments.
  apply wp_for_each_prefix with
    (I := λ pre s', 0 < seq s' Deployment
                    ∧ ∀ d i, d ∈ pre → d_id d = Some i → registered s' Deployment i).
  - split; [done|]. intros d i Hd. by apply elem_of_nil in Hd.
  - clear s Hpos. intros pre x s Hx [Hpos Hpre]. wp_steps. split.
    + simpl_state. lia.
    + intros d i Hd Hi. apply elem_of_app in Hd as [Hd|Hd].
      * apply registered_insert; [intros _; cbn; lia|]. destruct (Hpre d i Hd Hi) as (n & ? & ?).
        exists n. by simpl_state.
      * apply list_elem_of_singleton in Hd as ->.
        replace i with a0 by congruence. apply registered_new. cbn. lia.
  - intros s' [_ H]. done.
Qed.

Lemma wf_perform_other w s :
  match w with Save _ _ => False | _ => True end → wf s → wf (perform w s).
Proof. destruct w; try done. intros _. apply wf_create. Qed.

Ltac wf_tac := repeat (apply wf_perform_other; [done|]); try done.

Lemma truthy_registered s k i : registered s k i → truthy (Some i ≫= λ i, id_maps s k !! i) = true.
Proof.
  intros (n & Hn & Hn0). cbn. rewrite Hn. cbn. by destruct (Z.eqb_spec n 0).
Qed.

(** A source image whose deployment is registered gets a row of the
    project. *)
Lemma import_source_images_live images_data project s img i :
  img ∈ images_data → im_deployment_id img = Some (Some i) →
  registered s Deployment i →
  wp (import_source_images images_data project)
     (λ _ s', ∃ r, r ∈ tables s' SourceImage ∧ col r "project" = VInt (pk project)) s.
Proof.
  intros Himg Hdep Hreg. unfold import_source_images.
  apply wp_for_each_prefix with
    (I := λ pre s', id_maps s' Deployment = id_maps s Deployment
                    ∧ (img ∈ pre → ∃ r, r ∈ tables s' SourceImage
                                        ∧ col r "project" = VInt (pk project))).
  - split; [done|]. intros H. by apply elem_of_nil in H.
  - intros pre x s1 Hx [Hmap Hpre]. wp_steps; (split; [by simpl_state|]).
    + intros Hin. apply elem_of_app in Hin as [Hin|Hin]; [by apply Hpre|].
      apply list_elem_of_singleton in Hin as ->. exfalso.
      assert (a = Some i) as -> by congruence.
      apply truthy_registered in Hreg. cbn in Hreg, Heqb. rewrite Hmap in Heqb.
      rewrite Hreg in Heqb. done.
    + intros _. simpl_state. eexists. split; [apply elem_of_app; right; left | done].
  - intros s' [_ H]. by apply H.
Qed.

(** A pipeline configuration whose pipeline is registered gets a row of
    the project, or finds one. *)
Lemma import_pipeline_configs_live configs_data project s cfg i :
  cfg ∈ configs_data → pc_pipeline_id cfg = Some (Some i) →
  registered s Pipeline i →
  wp (import_pipeline_configs configs_data project)
     (λ _ s', ∃ r, r ∈ tables s' ProjectPipelineConfig
                   ∧ col r "project" = VInt (pk project)
                   ∧ col r "pipeline_id" = fk (id_maps s Pipeline !! i)) s.
Proof.
  intros Hcfg Hpl Hreg. unfold import_pipeline_configs.
  apply wp_for_each_prefix with
    (I := λ pre s', id_maps s' Pipeline = id_maps s Pipeline
                    ∧ (cfg ∈ pre → ∃ r, r ∈ tables s' ProjectPipelineConfig
                                        ∧ col r "project" = VInt (pk project)
                                        ∧ col r "pipeline_id" = fk (id_maps s Pipeline !! i))).
  - split; [done|]. intros H. by apply elem_of_nil in H.
  - intros pre x s1 Hx [Hmap Hpre]. wp_steps; (split; [by simpl_state|]).
    + intros Hin. apply elem_of_app in Hin as [Hin|Hin]; [by apply Hpre|].
      apply list_elem_of_singleton in Hin as ->. exfalso.
      assert (a = Some i) as -> by congruence.
      apply truthy_registered in Hreg. cbn in Hreg, Heqb. rewrite Hmap in Heqb.
      rewrite Hreg in Heqb. done.
    + intros Hin. simpl_state. apply elem_of_app in Hin as [Hin|Hin]; [by apply Hpre|].
      apply list_elem_of_singleton in Hin as ->.
      assert (a = Some i) as -> by congruence. cbn in Heqo. rewrite Hmap in Heqo.
      apply head_filter_Some in Heqo as [Hr Hp]. apply andb_prop in Hp as [Hp1 Hp2].
      apply col_is_true in Hp1, Hp2. eauto.
    + intros Hin. simpl_state. apply elem_of_app in Hin as [Hin|Hin].
      * destruct (Hpre Hin) as (r & Hr & ?). exists r. split; [|done].
        apply elem_of_app. by left.
      * apply list_elem_of_singleton in Hin as ->.
        assert (a = Some i) as -> by congruence. cbn. rewrite Hmap.
        eexists. split; [apply elem_of_app; right; left | done].
  - intros s' [_ H]. by apply H.
Qed.

Lemma has_key_create s k k' kwargs key :
  has_key s k key → has_key (perform (Create k' kwargs) s) k key.
Proof.
  intros (r & Hr & Hk). exists r. split; [|done]. cbn.
  destruct (decide (k' = k)) as [->|]; [|by rewrite fn_lookup_insert_ne].
  rewrite fn_lookup_insert. apply elem_of_app. by left.
Qed.

Lemma has_key_created s k kwargs :
  has_key (perform (Create k kwargs) s) k (natural_key k (Row (seq s k) kwargs)).
Proof.
  eexists. split; [|done]. cbn. rewrite fn_lookup_insert. apply elem_of_app. right. left.
Qed.

Lemma found_pk_pos s k (p : row → bool) r :
  wf s → head (filter (λ r, p r = true) (tables s k)) = Some r → pk r ≠ 0.
Proof.
  intros Hwf H. apply head_filter_Some in H as [Hr _].
  destruct (Hwf k) as (_ & _ & Hb). apply Hb in Hr. lia.
Qed.

Ltac pk_pos :=
  match goal with
  | Hwf : wf ?s, H : head (filter _ (tables ?s ?k)) = Some ?r |- pk ?r ≠ 0 =>
      exact (found_pk_pos s k _ r Hwf H)
  end.

(** Every processing service of the document has a row with its
    endpoint, linked to the project, and is registered. *)
Lemma import_processing_services_live services_data project s :
  wf s →
  wp (import_processing_services services_data project)
     (λ _ s', ∀ svc, svc ∈ services_data →
        (∀ url, ps_endpoint_url svc = Some url →
           ∃ r, r ∈ tables s' ProcessingService ∧ col r "endpoint_url" = VStr url
                ∧ (pk r, pk project) ∈ links s' ProcessingService_projects)
        ∧ (∀ i, ps_id svc = Some i → registered s' ProcessingService i)) s.
Proof.
  intros Hwf. unfold import_processing_services.
  apply wp_for_each_prefix with
    (I := λ pre s', wf s' ∧ ∀ svc, svc ∈ pre →
        (∀ url, ps_endpoint_url svc = Some url →
           ∃ r, r ∈ tables s' ProcessingService ∧ col r "endpoint_url" = VStr url
                ∧ (pk r, pk project) ∈ links s' ProcessingService_projects)
        ∧ (∀ i, ps_id svc = Some i → registered s' ProcessingService i)).
  - split; [done|]. intros svc H. by apply elem_of_nil in H.
  - clear s Hwf. intros pre x s Hx [Hwf Hpre]. wp_steps; (split; [wf_tac|]).
    + intros svc Hin. apply elem_of_app in Hin as [Hin|Hin].
      * destruct (Hpre svc Hin) as [Hrow Hreg]. split.
        -- intros url Hurl. destruct (Hrow url Hurl) as (r0 & ? & ? & ?).
           exists r0. simpl_state. split; [done|]. split; [done|]. set_solver.
        -- intros i Hi. apply registered_insert; [|by apply Hreg].
           intros _. pk_pos.
      * apply list_elem_of_singleton in Hin as ->. split.
        -- intros url Hurl. assert (url = a) as -> by congruence.
           pose proof Heqo as Hf. apply head_filter_Some in Hf as [Hr Hp].
           apply col_is_true in Hp. exists r. simpl_state. split; [done|]. split; [done|].
           set_solver.
        -- intros i Hi. assert (i = a0) as -> by congruence.
           apply registered_new. pk_pos.
    + destruct (Hwf ProcessingService) as (_ & Hpos & _).
      intros svc Hin. apply elem_of_app in Hin as [Hin|Hin].
      * destruct (Hpre svc Hin) as [Hrow Hreg]. split.
        -- intros url Hurl. destruct (Hrow url Hurl) as (r0 & ? & ? & ?).
           exists r0. simpl_state. split; [apply elem_of_app; by left|]. split; [done|].
           set_solver.
        -- intros i Hi. apply registered_insert; [intros _; cbn; lia|].
           destruct (Hreg i Hi) as (n & ? & ?). exists n. by simpl_state.
      * apply list_elem_of_singleton in Hin as ->. split.
        -- intros url Hurl. assert (url = a) as -> by congruence.
           eexists. simpl_state. split; [apply elem_of_app; right; left|]. split; [done|].
           cbn. set_solver.
        -- intros i Hi. assert (i = a1) as -> by congruence.
           apply registered_new. cbn. lia.
  - intros s' [_ H]. done.
Qed.

(** The row found by a natural key has it. *)
Ltac found_key :=
  match goal with
  | H : head (filter _ _) = Some ?r |- has_key _ _ _ =>
      let Hr := fresh "Hr" in let Hp := fresh "Hp" in
      pose proof H as Hp; apply head_filter_Some in Hp as [Hr Hp];
      try (apply andb_prop in Hp as [Hp ?]);
      repeat match goal with E : col_is _ _ _ = true |- _ => apply col_is_true in E end;
      exists r; simpl_state; split; [done|]; cbn; congruence
  end.

(** Every pipeline of the document has a row with its name and version
    and is registered. *)
Lemma import_pipelines_live pipelines_data project s :
  wf s →
  wp (import_pipelines pipelines_data project)
     (λ _ s', ∀ pl, pl ∈ pipelines_data →
        (∀ key, pipeline_key pl = Some key → has_key s' Pipeline key)
        ∧ (∀ i, pl_id pl = Some i → registered s' Pipeline i)) s.
Proof.
  intros Hwf. unfold import_pipelines.
  apply wp_for_each_prefix with
    (I := λ pre s', wf s' ∧ ∀ pl, pl ∈ pre →
        (∀ key, pipeline_key pl = Some key → has_key s' Pipeline key)
        ∧ (∀ i, pl_id pl = Some i → registered s' Pipeline i)).
  - split; [done|]. intros pl H. by apply elem_of_nil in H.
  - clear s Hwf. intros pre x s Hx [Hwf Hpre].
    destruct (Hwf Pipeline) as (_ & Hpos & _).
    wp_steps; (split; [wf_tac|]).
    all: intros pl Hin; apply elem_of_app in Hin as [Hin|Hin];
      [destruct (Hpre pl Hin) as [Hrow Hreg] | apply list_elem_of_singleton in Hin as ->];
      (split; [intros key Hkey | intros i Hi]).
    all: try (unfold pipeline_key in Hkey; rewrite H, H0 in Hkey; cbn in Hkey;
              injection Hkey as <-).
    all: repeat match goal with
         | |- has_key (perform (Register _ _ _) ?s) _ _ => change (has_key s Pipeline key)
         | |- has_key (perform (SetTo _ _ _) ?s) _ _ => change (has_key s Pipeline key)
         end.
    all: try (apply has_key_create; by apply Hrow).
    all: try (by apply Hrow).
    all: try found_key.
    all: try (eexists; simpl_state; split; [apply elem_of_app; right; left | done]).
    all: try (assert (i = a1) as -> by congruence).
    all: try (apply registered_new; first [pk_pos | cbn; lia]).
    all: apply registered_insert; [intros _; first [pk_pos | cbn; lia]|].
    all: destruct (Hreg i Hi) as (n & ? & ?); exists n; by simpl_state.
  - intros s' [_ H]. done.
Qed.

(** Every algorithm of the document has a row with its key and
    version. *)
Lemma import_algorithms_live algorithms_data project s :
  wp (import_algorithms algorithms_data project)
     (λ _ s', ∀ al key, al ∈ algorithms_data → algo_key al = Some key →
                        has_key s' Algorithm key) s.
Proof.
  unfold import_algorithms.
  apply wp_for_each_prefix with
    (I := λ pre s', ∀ al key, al ∈ pre → algo_key al = Some key → has_key s' Algorithm key).
  - intros al key H. by apply elem_of_nil in H.
  - intros pre x s1 Hx Hpre. wp_steps.
    all: intros al key Hin Hkey; apply elem_of_app in Hin as [Hin|Hin];
      [pose proof (Hpre al key Hin Hkey) as Hrow | apply list_elem_of_singleton in Hin as ->].
    all: try (unfold algo_key in Hkey; rewrite H, H0 in Hkey; cbn in Hkey;
              injection Hkey as <-).
    all: repeat match goal with
         | |- has_key (perform (Register _ _ _) ?s) _ ?key => change (has_key s Algorithm key)
         end.
    all: try done.
    all: try found_key.
    all: try (repeat apply has_key_create; done).
    all: eexists; simpl_state; (split; [apply elem_of_app; right; left | done]).
  - done.
Qed.

(** After the first pass of [import_taxa], every taxon of the document
    has a row with its name. *)
Lemma import_taxa_first_live taxa_data project by_old s :
  wp (for_each_with taxa_data by_old (import_taxa_first project))
     (λ _ s', ∀ t key, t ∈ taxa_data → taxon_key t = Some key → has_key s' Taxon key) s.
Proof.
  apply wp_for_each_with_prefix with
    (I := λ pre _ s', ∀ t key, t ∈ pre → taxon_key t = Some key → has_key s' Taxon key).
  - intros t key H. by apply elem_of_nil in H.
  - intros pre x b s1 Hx Hpre. unfold import_taxa_first. wp_steps.
    all: intros t key Hin Hkey; apply elem_of_app in Hin as [Hin|Hin];
      [pose proof (Hpre t key Hin Hkey) as Hrow | apply list_elem_of_singleton in Hin as ->].
    all: try (unfold taxon_key in Hkey; rewrite H in Hkey; cbn in Hkey;
              injection Hkey as <-).
    all: repeat match goal with
         | |- has_key (perform (Register _ _ _) ?s) _ ?key => change (has_key s Taxon key)
         | |- has_key (perform (Add _ _ _) ?s) _ ?key => change (has_key s Taxon key)
         end.
    all: try done.
    all: try found_key.
    all: try (repeat apply has_key_create; done).
    all: eexists; simpl_state; (split; [apply elem_of_app; right; left | done]).
  - done.
Qed.

Section Kept.

Context (u p : Z) (options : options) (keys : model → list (list val)).

Local Abbreviation W := (import_writes u p options keys).
Local Abbreviation Kept := (kept u p options keys).

Lemma kept_stable (P : state → Prop) :
  (∀ seq0, (∀ k, 0 < seq0 k) → stable (W seq0) (λ s, wf s ∧ P s)) → Kept P.
Proof.
  intros HP s s' Hwf HI H.
  eapply (reach_stable _ (λ s, wf s ∧ P s)); [|exact HI|done].
  apply HP. intros k. by destruct (Hwf k) as (_ & ? & _).
Qed.

Lemma kept_and P Q : Kept P → Kept Q → Kept (λ s, P s ∧ Q s).
Proof. intros HP HQ s s' Hwf HI [? ?]. split; [by eapply HP | by eapply HQ]. Qed.

Lemma kept_forall {A} (P : A → state → Prop) : (∀ a, Kept (P a)) → Kept (λ s, ∀ a, P a s).
Proof. intros HP s s' Hwf HI H a. by eapply HP. Qed.

Lemma kept_impl (C : Prop) P : Kept P → Kept (λ s, C → P s).
Proof. intros HP s s' Hwf HI H HC. eapply HP; eauto. Qed.

Lemma kept_True : Kept (λ _, True).
Proof. done. Qed.

Lemma kept_wf : Kept wf.
Proof. intros s s' Hwf HI _. by eapply wf_reach. Qed.

Lemma kept_has_key k key : Kept (λ s, has_key s k key).
Proof.
  apply kept_stable. intros seq0 Hpos s w HW [Hwf Hkey].
  split; [by eapply wf_import_write|].
  destruct w as [k' kw|k' o| | |]; try done.
  - by apply has_key_create.
  - destruct (decide (k' = k)) as [->|Hne].
    + destruct Hkey as (r & Hr & Hk). destruct HW as (_ & _ & ro & Hro & Hpk & Hko).
      destruct (keyed_save s k o (pk r) key) as (r' & Hr' & _ & Hk').
      * by destruct (Hwf k).
      * by exists ro.
      * by exists r.
      * by exists r'.
    + destruct Hkey as (r & Hr & Hk). exists r. split; [|done]. cbn.
      by rewrite fn_lookup_insert_ne.
Qed.

Lemma kept_registered k i : Kept (λ s, registered s k i).
Proof.
  apply kept_stable. intros seq0 Hpos s w HW [Hwf Hreg].
  split; [by eapply wf_import_write|].
  destruct w as [| | | |k' old new]; try done.
  apply registered_insert; [|done]. intros ->.
  destruct HW as [_ HW].
  assert (∀ r, r ∈ tables s k → pk r ≠ 0) as Hrow.
  { intros r Hr. destruct (Hwf k) as (_ & _ & Hb). apply Hb in Hr. lia. }
  specialize (Hpos k).
  destruct k; cbn in HW; try lia; try done.
  all: destruct HW as (r & Hr & <- & _) || destruct HW as (r & Hr & <-); by apply Hrow.
Qed.

(** Rows of a table nothing is saved to stay. *)
Lemma kept_row k r : k ≠ Taxon → k ≠ Occurrence → Kept (λ s, r ∈ tables s k).
Proof.
  intros H1 H2. apply kept_stable. intros seq0 Hpos s w HW [Hwf Hr].
  split; [by eapply wf_import_write|].
  destruct w as [k' kw|k' o| | |]; try done; cbn.
  - destruct (decide (k' = k)) as [->|]; [|by rewrite fn_lookup_insert_ne].
    rewrite fn_lookup_insert. apply elem_of_app. by left.
  - destruct HW as ([->| ->] & _); by rewrite fn_lookup_insert_ne.
Qed.

(** Links of a [projects] field stay. *)
Lemma kept_link rel a b :
  rel = Taxon_projects ∨ rel = TaxaList_projects ∨ rel = ProcessingService_projects →
  Kept (λ s, (a, b) ∈ links s rel).
Proof.
  intros Hrel. apply kept_stable. intros seq0 Hpos s w HW [Hwf Hl].
  split; [by eapply wf_import_write|].
  destruct w as [| |rel' a' b'|rel' a' ids|]; try done; cbn.
  - destruct (decide (rel' = rel)) as [->|]; [|by rewrite fn_lookup_insert_ne].
    rewrite fn_lookup_insert. apply elem_of_union. by right.
  - destruct (decide (rel' = rel)) as [->|]; [|by rewrite fn_lookup_insert_ne].
    exfalso. destruct HW as [->|[->|[[-> _]|[-> _]]]]; by destruct Hrel as [?|[?|?]].
Qed.

Lemma kept_id_map k m :
  ¬ imported options k → Kept (λ s, id_maps s k = m).
Proof.
  intros Hk. apply kept_stable. intros seq0 Hpos s w HW [Hwf <-].
  split; [by eapply wf_import_write|].
  destruct w as [| | | |k' old new]; try done; cbn.
  destruct (decide (k' = k)) as [->|]; [|by rewrite fn_lookup_insert_ne].
  by destruct HW as [? _].
Qed.

End Kept.

Section Live.

Context (user project : row) (options : options).
Context (keys : model → list (list val)).

Local Abbreviation Kept := (kept (pk user) (pk project) options keys).

Lemma kept_exists {A} (P : A → state → Prop) :
  (∀ a, Kept (P a)) → Kept (λ s, ∃ a, P a s).
Proof. intros HP s s' Hwf HI [a H]. exists a. by eapply HP. Qed.

Lemma kept_const (C : Prop) : Kept (λ _, C).
Proof. by intros s s' _ _ H. Qed.

Lemma wp_True {A} (m : M A) s : wp m (λ _ _, True) s.
Proof. unfold wp. by destruct (m s) as [[a|e] s']. Qed.

Lemma wp_forall {A B} (m : M A) (Q : B → A → state → Prop) s :
  (∀ b, wp m (Q b) s) → wp m (λ a s', ∀ b, Q b a s') s.
Proof.
  intros H. unfold wp in *. destruct (m s) as [[a|e] s']; [|done].
  intros b. apply H.
Qed.

Lemma wp_impl {A} (m : M A) (C : Prop) (Q : A → state → Prop) s :
  (C → wp m Q s) → wp m (λ a s', C → Q a s') s.
Proof.
  intros H. unfold wp in *. destruct (m s) as [[a|e] s']; [|done].
  intros HC. by apply H.
Qed.

(** One method of [import_data]: the facts [P] gathered so far are kept
    by its writes, and it adds the fact [P']. *)
Lemma component_post (m : M unit) (Q : unit → state → Prop) (P P' : state → Prop) s :
  preserves (import_inv (pk user) (pk project) options keys s) m →
  Kept P → wf s → P s →
  wp m (λ _, P') s →
  (∀ s', wf s' → P s' → P' s' → Q tt s') →
  wp m Q s.
Proof.
  intros Hfoot HP Hwf HPs HP' HQ.
  pose proof (wp_conj _ _ _ _ (Hfoot s (reach_refl _ _)) HP') as H.
  eapply wp_mono; [exact H|]. cbv beta. intros [] s' [HI HP's].
  apply HQ; [by eapply wf_reach | by eapply HP | done].
Qed.

(** The second loop of [import_taxa] on its own. *)
Lemma import_taxa_second_loop taxa_data by_old s0 s :
  wf s0 →
  taxa_inv (pk user) (pk project) options keys s0 by_old s →
  wp (for_each_with taxa_data by_old import_taxa_second)
     (λ _ s', import_inv (pk user) (pk project) options keys s0 s') s.
Proof.
  intros Hwf HJ.
  apply wp_for_each_with with (I := taxa_inv (pk user) (pk project) options keys s0).
  - done.
  - intros x by2 s2 Hx HJ2. by apply import_taxa_second_writes.
  - by intros by2 s2 [HI2 _].
Qed.

(** After [import_taxa], every taxon of the document has a row with its
    name. *)
Lemma import_taxa_live taxa_data s :
  wf s →
  (∀ x key, x ∈ taxa_data → taxon_key x = Some key → key ∈ keys Taxon) →
  wp (import_taxa taxa_data project)
     (λ _ s', ∀ t key, t ∈ taxa_data → taxon_key t = Some key → has_key s' Taxon key) s.
Proof.
  intros Hwf Hkeys. unfold import_taxa. apply wp_bind.
  eapply wp_mono.
  { apply wp_conj.
    - apply wp_for_each_with with (I := taxa_inv (pk user) (pk project) options keys s).
      + split; [apply reach_refl|]. intros old o Ho. by rewrite lookup_empty in Ho.
      + intros x by_old s1 Hx HJ. apply import_taxa_first_writes; [|done]. eauto.
      + intros by_old s1 HJ. exact HJ.
    - apply import_taxa_first_live. }
  cbv beta. intros by_old s1 [[HI Hby] Hlive].
  assert (wf s1) as Hwf1 by by eapply wf_reach.
  apply wp_bind. eapply wp_mono.
  { apply (import_taxa_second_loop taxa_data by_old s1 s1 Hwf1). split; [apply reach_refl|done]. }
  cbv beta. intros _ s2 HI2. apply wp_ret.
  intros t key Ht Hkey. eapply (kept_has_key _ _ _ _ Taxon key s1 s2); eauto.
Qed.

End Live.

Ltac kept_tac :=
  repeat first
    [ apply kept_True
    | apply kept_has_key
    | apply kept_registered
    | apply kept_row; done
    | apply kept_link; auto
    | apply kept_and
    | apply kept_forall; intros ?
    | apply kept_impl
    | apply kept_exists; intros ?
    | apply kept_const ].

Ltac use_doc :=
  repeat match goal with E : _ = Some _ |- _ => rewrite E end; cbn [default].

Lemma import_data_live rule doc user options s0 :
  wf s0 →
  wp (import_data rule doc user options)
     (λ _ s', live doc options (seq s0 Project) s') s0.
Proof.
  intros Hwf. unfold import_data. wp_step. wp_step.
  apply wp_bind. eapply wp_mono; [apply import_project_wp|]. cbv beta.
  intros project s1 (name & old & Hfree & -> & ->).
  assert (wf (project_created name old user s0)) as Hwf1 by by apply wf_project_created.
  revert Hwf1. generalize (project_created name old user s0). intros s Hwf1.
  set (project := project_row name user s0).
  change (seq s0 Project) with (pk project).
  set (keys := doc_keys doc).
  set (F1 := λ s, ∀ d i, d ∈ default [] (doc_deployments doc) → d_id d = Some i →
                         registered s Deployment i).
  set (F2 := λ s, ∀ t key, t ∈ default [] (doc_taxa doc) → taxon_key t = Some key →
                           has_key s Taxon key).
  set (F3 := λ s, images_imported options →
                  ∀ img d i, img ∈ default [] (doc_source_images doc) →
                             d ∈ default [] (doc_deployments doc) →
                             im_deployment_id img = Some (Some i) → d_id d = Some i →
                             ∃ r, r ∈ tables s SourceImage ∧ col r "project" = VInt (pk project)).
  set (F4 := λ s, ml_imported options →
                  ∀ al key, al ∈ default [] (doc_algorithms doc) → algo_key al = Some key →
                            has_key s Algorithm key).
  set (F5 := λ s, ∀ svc, svc ∈ default [] (doc_processing_services doc) →
       (∀ url, ps_endpoint_url svc = Some url →
          ∃ r, r ∈ tables s ProcessingService ∧ col r "endpoint_url" = VStr url
               ∧ (pk r, pk project) ∈ links s ProcessingService_projects)
       ∧ (∀ i, ps_id svc = Some i → registered s ProcessingService i)).
  set (F6 := λ s, ∀ pl, pl ∈ default [] (doc_pipelines doc) →
        (∀ key, pipeline_key pl = Some key → has_key s Pipeline key)
        ∧ (∀ i, pl_id pl = Some i → registered s Pipeline i)).
  (* sites, devices, storage sources *)
  wp_step. wp_step. apply wp_bind.
  apply (component_post user project options keys _ _ (λ _, True) (λ _, True));
    [apply import_sites_writes | kept_tac | done | done | apply wp_True |].
  clear s Hwf1. intros s Hwf1 _ _.
  wp_step. wp_step. apply wp_bind.
  apply (component_post user project options keys _ _ (λ _, True) (λ _, True));
    [apply import_devices_writes | kept_tac | done | done | apply wp_True |].
  clear s Hwf1. intros s Hwf1 _ _.
  wp_step. wp_step. apply wp_bind.
  apply (component_post user project options keys _ _ (λ _, True) (λ _, True));
    [apply import_storage_sources_writes | kept_tac | done | done | apply wp_True |].
  clear s Hwf1. intros s Hwf1 _ _.
  (* deployments *)
  wp_step. wp_step. apply wp_bind.
  apply (component_post user project options keys _ _ (λ _, True) F1);
    [apply import_deployments_writes | kept_tac | done | done | |].
  { unfold F1. use_doc. apply import_deployments_live.
    by destruct (Hwf1 Deployment) as (_ & ? & _). }
  clear s Hwf1. intros s Hwf1 _ HF1.
  (* events *)
  wp_step. wp_step. apply wp_bind.
  apply (component_post user project options keys _ _ F1 (λ _, True));
    [apply import_events_writes | unfold F1; kept_tac | done | done | apply wp_True |].
  clear s Hwf1 HF1. intros s Hwf1 HF1 _.
  (* taxa *)
  wp_step. wp_step. apply wp_bind.
  apply (component_post user project options keys _ _ F1 F2);
    [apply import_taxa_writes; [done | intros; by eapply doc_keys_taxa]
    | unfold F1; kept_tac | done | done | |].
  { unfold F2. use_doc. apply (import_taxa_live user project options keys); [done|].
    intros. by eapply doc_keys_taxa. }
  clear s Hwf1 HF1. intros s Hwf1 HF1 HF2.
  wp_step. wp_step. apply wp_bind.
  apply (component_post user project options keys _ _ (λ s, F1 s ∧ F2 s) (λ _, True));
    [apply import_taxa_lists_writes | unfold F1, F2; kept_tac | done | done | apply wp_True |].
  clear s Hwf1 HF1 HF2. intros s Hwf1 [HF1 HF2] _.
  wp_step. wp_step. apply wp_bind.
  apply (component_post user project options keys _ _ (λ s, F1 s ∧ F2 s) (λ _, True));
    [apply import_tags_writes | unfold F1, F2; kept_tac | done | done | apply wp_True |].
  clear s Hwf1 HF1 HF2. intros s Hwf1 [HF1 HF2] _.
  (* source images *)
  apply wp_bind.
  apply wp_mono with (Q := λ _ s', wf s' ∧ F1 s' ∧ F2 s' ∧ F3 s').
  { destruct (opt_skip_images options) eqn:Himg; cbn [negb].
    { wp_step. split; [done|]. split; [done|]. split; [done|].
      intros Hi. unfold images_imported in Hi. congruence. }
    wp_step. wp_step. apply wp_bind.
    apply (component_post user project options keys _ _ (λ s, F1 s ∧ F2 s) F3);
      [by apply import_source_images_writes | unfold F1, F2; kept_tac | done | done | |].
    { unfold F3. use_doc. apply wp_impl. intros _.
      apply wp_forall. intros img. apply wp_forall. intros d. apply wp_forall. intros i.
      do 4 (apply wp_impl; intros ?).
      eapply import_source_images_live; [done..|].
      refine (HF1 d i _ _); [by use_doc | done]. }
    clear s Hwf1 HF1 HF2. intros s Hwf1 [HF1 HF2] HF3.
    wp_step. wp_step.
    apply (component_post user project options keys _ _ (λ s, F1 s ∧ F2 s ∧ F3 s) (λ _, True));
      [by apply import_collections_writes | unfold F1, F2, F3; kept_tac | done | done
      | apply wp_True |].
    by intros s' ? (? & ? & ?) _. }
  cbv beta. clear s Hwf1 HF1 HF2. intros _ s (Hwf1 & HF1 & HF2 & HF3).
  (* ML data *)
  apply wp_bind.
  apply wp_mono with (Q := λ _ s', wf s' ∧ F1 s' ∧ F2 s' ∧ F3 s' ∧ F4 s').
  { assert (¬ ml_imported options → F4 s) as Hskip by (by intros ? ?).
    destruct (opt_skip_ml_data options) eqn:Hml, (opt_skip_images options) eqn:Himg;
      cbn [negb andb].
    1-3: wp_step; repeat (split; [done|]); apply Hskip; unfold ml_imported; intros [? ?];
      congruence.
    clear Hskip. assert (ml_imported options) as Hopt by done.
    wp_step. wp_step. apply wp_bind.
    apply (component_post user project options keys _ _ (λ s, F1 s ∧ F2 s ∧ F3 s) F4);
      [apply import_algorithms_writes; [done | intros; by eapply doc_keys_algorithms]
      | unfold F1, F2, F3; kept_tac | done | done | |].
    { unfold F4. use_doc. apply wp_impl. intros _. apply import_algorithms_live. }
    clear s Hwf1 HF1 HF2 HF3. intros s Hwf1 (HF1 & HF2 & HF3) HF4.
    wp_step. wp_step. apply wp_bind.
    apply (component_post user project options keys _ _
             (λ s, F1 s ∧ F2 s ∧ F3 s ∧ F4 s) (λ _, True));
      [by apply import_occurrences_writes | unfold F1, F2, F3, F4; kept_tac | done | done
      | apply wp_True |].
    clear s Hwf1 HF1 HF2 HF3 HF4. intros s Hwf1 (HF1 & HF2 & HF3 & HF4) _.
    wp_step. wp_step. apply wp_bind.
    apply (component_post user project options keys _ _
             (λ s, F1 s ∧ F2 s ∧ F3 s ∧ F4 s) (λ _, True));
      [by apply import_detections_writes | unfold F1, F2, F3, F4; kept_tac | done | done
      | apply wp_True |].
    clear s Hwf1 HF1 HF2 HF3 HF4. intros s Hwf1 (HF1 & HF2 & HF3 & HF4) _.
    wp_step. wp_step. apply wp_bind.
    apply (component_post user project options keys _ _
             (λ s, F1 s ∧ F2 s ∧ F3 s ∧ F4 s) (λ _, True));
      [by apply import_classifications_writes | unfold F1, F2, F3, F4; kept_tac | done | done
      | apply wp_True |].
    clear s Hwf1 HF1 HF2 HF3 HF4. intros s Hwf1 (HF1 & HF2 & HF3 & HF4) _.
    wp_step. wp_step. apply wp_bind.
    apply (component_post user project options keys _ _
             (λ s, F1 s ∧ F2 s ∧ F3 s ∧ F4 s) (λ _, True));
      [by apply import_identifications_writes | unfold F1, F2, F3, F4; kept_tac | done | done
      | apply wp_True |].
    clear s Hwf1 HF1 HF2 HF3 HF4. intros s Hwf1 (HF1 & HF2 & HF3 & HF4) _.
    apply (component_post user project options keys _ _
             (λ s, F1 s ∧ F2 s ∧ F3 s ∧ F4 s) (λ _, True));
      [by apply update_occurrences_writes | unfold F1, F2, F3, F4; kept_tac | done | done
      | apply wp_True |].
    by intros s' ? (? & ? & ? & ?) _. }
  cbv beta. clear s Hwf1 HF1 HF2 HF3. intros _ s (Hwf1 & HF1 & HF2 & HF3 & HF4).
  (* services, pipelines, configurations *)
  wp_step. wp_step. apply wp_bind.
  apply (component_post user project options keys _ _ (λ s, F1 s ∧ F2 s ∧ F3 s ∧ F4 s) F5);
    [apply import_processing_services_writes; intros; by eapply doc_keys_services
    | unfold F1, F2, F3, F4; kept_tac | done | done | |].
  { unfold F5. use_doc. by apply import_processing_services_live. }
  clear s Hwf1 HF1 HF2 HF3 HF4. intros s Hwf1 (HF1 & HF2 & HF3 & HF4) HF5.
  wp_step. wp_step. apply wp_bind.
  apply (component_post user project options keys _ _
           (λ s, F1 s ∧ F2 s ∧ F3 s ∧ F4 s ∧ F5 s) F6);
    [apply import_pipelines_writes; intros; by eapply doc_keys_pipelines
    | unfold F1, F2, F3, F4, F5; kept_tac | done | done | |].
  { unfold F6. use_doc. by apply import_pipelines_live. }
  clear s Hwf1 HF1 HF2 HF3 HF4 HF5. intros s Hwf1 (HF1 & HF2 & HF3 & HF4 & HF5) HF6.
  wp_step. wp_step.
  set (F7 := λ s, ∀ cfg pl i, cfg ∈ default [] (doc_pipeline_configs doc) →
                 pl ∈ default [] (doc_pipelines doc) →
                 pc_pipeline_id cfg = Some (Some i) → pl_id pl = Some i →
                 ∃ r n, r ∈ tables s ProjectPipelineConfig
                        ∧ col r "project" = VInt (pk project)
                        ∧ col r "pipeline_id" = VInt n ∧ n ≠ 0).
  apply (component_post user project options keys _ _
           (λ s, F1 s ∧ F2 s ∧ F3 s ∧ F4 s ∧ F5 s ∧ F6 s) F7);
    [apply import_pipeline_configs_writes
    | unfold F1, F2, F3, F4, F5, F6; kept_tac | done | done | |].
  { unfold F7. use_doc.
    apply wp_forall. intros cfg. apply wp_forall. intros pl. apply wp_forall. intros i.
    do 4 (apply wp_impl; intros ?).
    assert (registered s Pipeline i) as Hreg.
    { refine (proj2 (HF6 pl _) i _); [by use_doc | done]. }
    eapply wp_mono; [by eapply import_pipeline_configs_live|]. cbv beta.
    intros _ s' (r & Hr & Hp & Hpl). destruct Hreg as (n & Hn & Hn0).
    rewrite Hn in Hpl. by exists r, n. }
  clear s Hwf1 HF1 HF2 HF3 HF4 HF5 HF6.
  intros s Hwf1 (HF1 & HF2 & HF3 & HF4 & HF5 & HF6) HF7.
  split; [|split; [done|]; split; [done|]; split; [done|]; split; [|done]].
  - intros k key Hk Hkey. destruct k; try (by apply elem_of_nil in Hkey).
    + apply list_elem_of_omap in Hkey as (t & Ht & Hkey). by eapply HF2.
    + apply list_elem_of_omap in Hkey as (al & Hal & Hkey). by eapply HF4.
    + apply list_elem_of_omap in Hkey as (svc & Hsvc & Hkey).
      unfold service_key in Hkey. destruct (ps_endpoint_url svc) as [url|] eqn:Hurl; [|done].
      injection Hkey as <-. destruct (proj1 (HF5 svc Hsvc) url Hurl) as (r & Hr & Hcol & _).
      exists r. split; [done|]. cbn. by rewrite Hcol.
    + apply list_elem_of_omap in Hkey as (pl & Hpl & Hkey). by eapply HF6.
  - intros pl i Hpl Hi. by eapply HF6.
Qed.

(** Every run of [import_data] that returns was an import and has done
    its work. *)
Lemma call_command_live rule input options s lines s' :
  wf s →
  call_command rule input options s = (Ok lines, s') →
  ∃ doc user,
    input = Some doc
    ∧ get_user options (Command_init s) = (Ok user, Command_init s)
    ∧ imported_from doc user options (Command_init s) s'
    ∧ live doc options (seq s Project) s'.
Proof.
  intros Hwf H. apply call_command_ok in H as (doc & user & -> & Huser & H).
  exists doc, user. split; [done|]. split; [done|]. split.
  - by apply (wp_run _ _ _ _ _ (import_data_wp rule doc user options _ (wf_Command_init _ Hwf)) H).
  - by apply (wp_run _ _ _ _ _ (import_data_live rule doc user options _ (wf_Command_init _ Hwf)) H).
Qed.

(* ===================================================================== *)
(** ** The skip flags *)
(* ===================================================================== *)

Lemma detections_of_project_nil p s :
  (∀ d img, d ∈ tables s Detection → img ∈ of_project SourceImage p s →
            col d "source_image_id" ≠ VInt (pk img)) →
  detections_of_project p s = [].
Proof.
  intros H. unfold detections_of_project. apply filter_nil_all.
  intros d Hd Hex. apply Exists_exists in Hex as (img & Himg & E). by eapply H.
Qed.

Lemma classifications_of_project_nil p s :
  detections_of_project p s = [] → classifications_of_project p s = [].
Proof.
  intros H. unfold classifications_of_project. rewrite H. apply filter_nil_all.
  intros c _ Hex. by apply Exists_nil in Hex.
Qed.

Lemma imported_appended doc user options s s' k :
  k ≠ Project → k ≠ Taxon → k ≠ Occurrence →
  imported_from doc user options s s' → appended k (tables s k) (seq s k) s'.
Proof.
  intros Hk H1 H2 (name & old & _ & HI).
  eapply (reach_stable _ _ _ _ (appended_stable _ _ _ _ _ k _ _ H1 H2) HI).
  rewrite <- (project_created_tables name old user s k Hk).
  rewrite <- (project_created_seq name old user s k Hk). apply appended_refl.
Qed.

(** C5 (as the code has it). With skip-images, the new project has no
    source image, detection, classification or occurrence. With
    skip-ml-data and images imported, it has no occurrence, detection or
    classification, and it has a source image when some source image of
    the document refers to a deployment of the document. *)
Theorem skip_flags rule input options s lines s' :
  wf s → no_dangling s →
  call_command rule input options s = (Ok lines, s') →
  (opt_skip_images options = true →
     of_project SourceImage (seq s Project) s' = []
     ∧ detections_of_project (seq s Project) s' = []
     ∧ classifications_of_project (seq s Project) s' = []
     ∧ of_project Occurrence (seq s Project) s' = [])
  ∧ (opt_skip_ml_data options = true → opt_skip_images options = false →
     of_project Occurrence (seq s Project) s' = []
     ∧ detections_of_project (seq s Project) s' = []
     ∧ classifications_of_project (seq s Project) s' = []
     ∧ ∀ doc img d i,
         input = Some doc →
         img ∈ default [] (doc_source_images doc) →
         d ∈ default [] (doc_deployments doc) →
         im_deployment_id img = Some (Some i) → d_id d = Some i →
         of_project SourceImage (seq s Project) s' ≠ []).
Proof.
  intros Hwf Hdang H.
  apply call_command_live in H as (doc & user & -> & Huser & HI & Hlive); [|done].
  change (seq s Project) with (seq (Command_init s) Project).
  assert (no_dangling (Command_init s)) as Hdang' by done.
  split.
  - intros Hskip.
    assert (of_project SourceImage (seq (Command_init s) Project) s' = []) as Himg.
    { eapply not_imported_of_project; [done| |done..]. cbn. unfold images_imported. congruence. }
    assert (detections_of_project (seq (Command_init s) Project) s' = []) as Hdet.
    { apply detections_of_project_nil. intros d img _ Hin. rewrite Himg in Hin.
      by apply elem_of_nil in Hin. }
    split; [done|]. split; [done|]. split; [by apply classifications_of_project_nil|].
    eapply not_imported_of_project; [done| |done..]. cbn. unfold ml_imported. intros [? ?].
    congruence.
  - intros Hml Himg.
    assert (¬ ml_imported options) as Hskip by (unfold ml_imported; intros [? ?]; congruence).
    assert (detections_of_project (seq (Command_init s) Project) s' = []) as Hdet.
    { apply detections_of_project_nil. intros d img Hd Hin E.
      rewrite (not_imported_table _ _ _ _ _ Detection ltac:(done) Hskip HI) in Hd.
      apply list_elem_of_filter in Hin as [Hp Hin].
      destruct (imported_appended _ _ _ _ _ SourceImage ltac:(done) ltac:(done) ltac:(done) HI)
        as (_ & new & Htab & Hnew).
      rewrite Htab in Hin. apply elem_of_app in Hin as [Hin|Hin].
      - destruct Hdang' as (Hd1 & _). apply (Hd1 SourceImage img _ Hin) in Hp. lia.
      - destruct Hdang' as (_ & Hd2 & _). apply (Hd2 d _ Hd) in E. apply Hnew in Hin. lia. }
    split; [by eapply not_imported_of_project|]. split; [done|].
    split; [by apply classifications_of_project_nil|].
    intros doc' img d i [= <-] Hin Hd Hdep Hid Hnil.
    destruct Hlive as (_ & _ & Himgs & _).
    destruct (Himgs Himg img d i Hin Hd Hdep Hid) as (r & Hr & Hp).
    assert (r ∈ of_project SourceImage (seq (Command_init s) Project) s') as Hof
      by by apply list_elem_of_filter.
    rewrite Hnil in Hof. by apply elem_of_nil in Hof.
Qed.

Lemma no_dangling_db_with_user : no_dangling db_with_user.
Proof.
  split; [|split].
  - intros k r i Hr. destruct (decide (k = User)) as [->|Hk].
    + cbn in Hr. rewrite fn_lookup_insert in Hr. apply list_elem_of_singleton in Hr as ->.
      by vm_compute.
    + cbn in Hr. rewrite fn_lookup_insert_ne in Hr by done. by apply elem_of_nil in Hr.
  - intros d i Hd. by apply elem_of_nil in Hd.
  - intros i a Hl. by apply elem_of_empty in Hl.
Qed.

Lemma skip_flags_witness :
  of_project Occurrence 1
    (call_command keep_determination (Some identified_document) skip_ml_options
       db_with_user).2 = []
  ∧ of_project SourceImage 1
      (call_command keep_determination (Some identified_document) skip_ml_options
         db_with_user).2 ≠ [].
Proof.
  destruct (skip_flags keep_determination (Some identified_document) skip_ml_options
              db_with_user _ _ wf_db_with_user no_dangling_db_with_user
              ltac:(vm_compute; reflexivity)) as [_ H].
  destruct (H eq_refl eq_refl) as (Hocc & _ & _ & Himg). split; [exact Hocc|].
  eapply (Himg identified_document _ _ 4 eq_refl); [left | left | done | done].
Defined.

(** C5, as stated, fails: with skip-ml-data and images imported, a
    document that contains a source image leaves the new project without
    source image rows when the image's deployment does not resolve. *)
Lemma source_image_may_be_dropped :
  let run := call_command keep_determination (Some orphan_image_document) skip_ml_options
               db_with_user in
  opt_skip_ml_data skip_ml_options = true
  ∧ opt_skip_images skip_ml_options = false
  ∧ (∃ img, img ∈ default [] (doc_source_images orphan_image_document))
  ∧ (∃ lines, run.1 = Ok lines)
  ∧ (∃ project, tables run.2 Project = [project] ∧ pk project = 1)
  ∧ of_project SourceImage 1 run.2 = [].
Proof.
  vm_compute. repeat split; try reflexivity.
  - eexists. left.
  - by eexists.
  - by eexists.
Qed.
